(** * AgentIQ: the ReWOO agent glue, the job store and the dataset handler

    A shallow embedding of four Python modules of the repository:

    - [aiq/agent/rewoo_agent/prompt.py]   (module [Prompt], on top of [PyRe])
    - [aiq/agent/rewoo_agent/register.py] (module [Register])
    - [aiq/front_ends/fastapi/job_store.py] (module [JobStore])
    - [aiq/eval/dataset_handler/dataset_handler.py] (module [DatasetHandler])

    Python [str] values are modelled as lists of 8-bit characters read as the
    code points U+0000..U+00FF; Python [int] is [Z]; a function that may
    raise returns an [outcome]. *)

From Stdlib Require Import Ascii String ZArith Lia.
From stdpp Require Import base list gmap strings.

Local Open Scope Z_scope.

(** ** Python strings as character lists *)

Abbreviation str := (list ascii).

Definition chars (s : string) : str := list_ascii_of_string s.

Definition code (c : ascii) : N := N_of_ascii c.

(** ** Exceptions and outcomes

    Every class below derives from Python's [Exception]; signals that only
    derive from [BaseException] (KeyboardInterrupt and the like) are not
    modelled. *)

Inductive exn_class :=
| ValueError
| TypeError
| KeyError
| IndexError
| AttributeError
| GraphRecursionError
| RuntimeError
| ValidationError.

Record exn := Exn { exn_cls : exn_class; exn_text : string }.

Inductive outcome (A : Type) :=
| Return (a : A)
| Raise (e : exn).
Arguments Return {A} a.
Arguments Raise {A} e.

#[global] Instance outcome_ret : MRet outcome := λ A a, Return a.

#[global] Instance outcome_bind : MBind outcome := λ A B k m,
  match m with
  | Return a => k a
  | Raise e => Raise e
  end.

#[global] Instance outcome_fmap : FMap outcome := λ A B f m,
  match m with
  | Return a => Return (f a)
  | Raise e => Raise e
  end.

(** ** A model of the fragment of Python's [re] that the plan pattern uses

    Quantifiers apply to single-character sets only and are greedy; there is
    no alternation, so the order in which the backtracking engine tries the
    ways to match is fixed by the quantifiers alone. [exec] lists every way to
    match at the start of the text in exactly that order; the head of the list
    is what [re] reports. *)
Module PyRe.

Inductive charset :=
| Chr (c : ascii)            (* a literal character, possibly escaped *)
| Space                      (* \s *)
| Digit                      (* \d *)
| Word                       (* \w *)
| Dot                        (* .  without DOTALL *)
| NoneOf (cs : list ascii).  (* [^...] *)

Inductive regex :=
| Eps
| One (k : charset)
| Star (k : charset)         (* k*  *)
| Plus (k : charset)         (* k+  *)
| Cat (r1 r2 : regex)
| Group (r : regex).         (* ( r ) *)

Definition between (lo hi : N) (c : ascii) : bool :=
  ((lo <=? code c) && (code c <=? hi))%N.

(** [str.isspace] and [\s] on code points below 256. *)
Definition is_space (c : ascii) : bool :=
  between 9 13 c || between 28 32 c || (code c =? 133)%N || (code c =? 160)%N.

Definition is_digit (c : ascii) : bool := between 48 57 c.

(** [\w] on a [str] pattern: alphanumeric in the Unicode sense, or underscore. *)
Definition is_word (c : ascii) : bool :=
  between 48 57 c || between 65 90 c || (code c =? 95)%N || between 97 122 c
  || (code c =? 170)%N || between 178 179 c || (code c =? 181)%N
  || between 185 186 c || between 188 190 c || between 192 214 c
  || between 216 246 c || between 248 255 c.

Definition newline : ascii := ascii_of_N 10.

Definition mem (c : ascii) (cs : list ascii) : bool :=
  existsb (Ascii.eqb c) cs.

Definition accepts (k : charset) (c : ascii) : bool :=
  match k with
  | Chr x => Ascii.eqb c x
  | Space => is_space c
  | Digit => is_digit c
  | Word => is_word c
  | Dot => negb (Ascii.eqb c newline)
  | NoneOf cs => negb (mem c cs)
  end.

(** One way to match: the text consumed, the groups closed (in order of
    their opening parenthesis) and the text left. *)
Record way := Way { consumed : str; groups : list str; rest : str }.

Definition push (c : ascii) (w : way) : way :=
  Way (c :: consumed w) (groups w) (rest w).

(** Greedy repetition: the longest run first, then one character less, ...,
    down to the empty run. *)
Fixpoint star (k : charset) (s : str) : list way :=
  match s with
  | c :: s' =>
      if accepts k c then (push c <$> star k s') ++ [Way [] [] s]
      else [Way [] [] s]
  | [] => [Way [] [] []]
  end.

Definition plus (k : charset) (s : str) : list way :=
  match s with
  | c :: s' => if accepts k c then push c <$> star k s' else []
  | [] => []
  end.

Definition one (k : charset) (s : str) : list way :=
  match s with
  | c :: s' => if accepts k c then [Way [c] [] s'] else []
  | [] => []
  end.

Definition seq (w1 w2 : way) : way :=
  Way (consumed w1 ++ consumed w2) (groups w1 ++ groups w2) (rest w2).

Definition capture (w : way) : way :=
  Way (consumed w) (consumed w :: groups w) (rest w).

Fixpoint exec (r : regex) (s : str) : list way :=
  match r with
  | Eps => [Way [] [] s]
  | One k => one k s
  | Star k => star k s
  | Plus k => plus k s
  | Cat r1 r2 => w1 ← exec r1 s; seq w1 <$> exec r2 (rest w1)
  | Group r => capture <$> exec r s
  end.

Definition all_in (k : charset) (s : str) : bool := forallb (accepts k) s.

(** The language of a pattern, without the order: the texts it can consume
    and the groups it then reports. *)
Fixpoint lang (r : regex) (c : str) (gs : list str) : Prop :=
  match r with
  | Eps => c = [] ∧ gs = []
  | One k => ∃ x, c = [x] ∧ accepts k x = true ∧ gs = []
  | Star k => all_in k c = true ∧ gs = []
  | Plus k => c ≠ [] ∧ all_in k c = true ∧ gs = []
  | Cat r1 r2 => ∃ c1 c2 g1 g2,
      c = c1 ++ c2 ∧ gs = g1 ++ g2 ∧ lang r1 c1 g1 ∧ lang r2 c2 g2
  | Group r => ∃ g, gs = c :: g ∧ lang r c g
  end.

(** The engine stops a greedy run before [s]: at the end of the text or at a
    character outside the set. *)
Definition stops (k : charset) (s : str) : bool :=
  match s with
  | [] => true
  | c :: _ => negb (accepts k c)
  end.

(** [re.match]: the first way, if any. *)
Definition match_at (r : regex) (s : str) : option way := head (exec r s).

(** [w] is the way the engine tries first and reports. *)
Definition first (r : regex) (s : str) (w : way) : Prop := match_at r s = Some w.

Definition has_way (r : regex) (s : str) : bool :=
  match exec r s with [] => false | _ => true end.

(** A run of [k] that ends where [s] starts can be made longer, into [s],
    and [r] still matches after it. *)
Fixpoint stretches (k : charset) (r : regex) (s : str) : bool :=
  match s with
  | [] => false
  | c :: s' => accepts k c && (has_way r s' || stretches k r s')
  end.

(** [re.search]: the leftmost position with a match. *)
Fixpoint search (r : regex) (s : str) : option way :=
  match match_at r s with
  | Some w => Some w
  | None => match s with
            | [] => None
            | _ :: s' => search r s'
            end
  end.

(** What [findall] reports for one match: the tuple of groups, or the whole
    match when the pattern has no group. *)
Definition item (w : way) : list str :=
  match groups w with
  | [] => [consumed w]
  | gs => gs
  end.

Definition nonempty_str (s : str) : bool :=
  match s with [] => false | _ => true end.

Definition nonempty (w : way) : bool := nonempty_str (consumed w).

(** [re.findall]: scan left to right; after a match resume at its end. [skip]
    counts the characters of the last match still to be stepped over. After
    an empty match the engine must advance: it looks for a non-empty match at
    the same position before moving on. *)
Fixpoint scan (r : regex) (s : str) (skip : nat) : list (list str) :=
  match skip with
  | S n => match s with
           | [] => []
           | _ :: s' => scan r s' n
           end
  | O =>
      let next n := match s with
                    | [] => []
                    | _ :: s' => scan r s' n
                    end in
      match exec r s with
      | [] => next O
      | w :: ws =>
          if nonempty w then item w :: next (pred (length (consumed w)))
          else match filter (λ w', nonempty w' = true) ws with
               | [] => item w :: next O
               | w' :: _ => item w :: item w' :: next (pred (length (consumed w')))
               end
      end
  end.

Definition findall (r : regex) (s : str) : list (list str) := scan r s O.

(** *** Reading a pattern

    [compile] reads the pattern syntax the plan pattern is written in:
    literals, the escapes \s \d \w, escaped punctuation, [.], negated sets
    [[^...]], groups and the quantifiers [*] and [+] on a single character.
    Anything else is refused. *)

Inductive mode :=
| Normal
| Escape
| SetOpen
| SetBody (cs : list ascii)
| SetEscape (cs : list ascii).

(** [cur] holds the items of the sequence being read, last one first;
    [stack] the sequences of the enclosing groups. *)
Record reader := Reader { stack : list (list regex); cur : list regex; md : mode }.

Definition cat (items : list regex) : regex := foldr Cat Eps items.

Definition add (st : reader) (r : regex) : option reader :=
  Some (Reader (stack st) (r :: cur st) Normal).

Definition quantify (st : reader) (q : charset → regex) : option reader :=
  match cur st with
  | One k :: items => Some (Reader (stack st) (q k :: items) Normal)
  | _ => None
  end.

Definition is_char (c : ascii) (s : string) : bool := mem c (chars s).

Definition step (st : reader) (c : ascii) : option reader :=
  match md st with
  | Normal =>
      if is_char c "\" then Some (Reader (stack st) (cur st) Escape)
      else if is_char c "." then add st (One Dot)
      else if is_char c "[" then Some (Reader (stack st) (cur st) SetOpen)
      else if is_char c "(" then Some (Reader (cur st :: stack st) [] Normal)
      else if is_char c ")" then
        match stack st with
        | outer :: others => Some (Reader others (Group (cat (rev (cur st))) :: outer) Normal)
        | [] => None
        end
      else if is_char c "*" then quantify st Star
      else if is_char c "+" then quantify st Plus
      else if is_char c "?{}|^$" then None
      else add st (One (Chr c))
  | Escape =>
      if is_char c "s" then add st (One Space)
      else if is_char c "d" then add st (One Digit)
      else if is_char c "w" then add st (One Word)
      else if is_word c then None
      else add st (One (Chr c))
  | SetOpen =>
      if is_char c "^" then Some (Reader (stack st) (cur st) (SetBody [])) else None
  | SetBody cs =>
      if is_char c "]" then
        match cs with
        | [] => Some (Reader (stack st) (cur st) (SetBody [c]))
        | _ => add st (One (NoneOf (rev cs)))
        end
      else if is_char c "\" then Some (Reader (stack st) (cur st) (SetEscape cs))
      else if is_char c "-[" then None
      else Some (Reader (stack st) (cur st) (SetBody (c :: cs)))
  | SetEscape cs =>
      if is_word c then None
      else Some (Reader (stack st) (cur st) (SetBody (c :: cs)))
  end.

Fixpoint read (st : reader) (p : str) : option reader :=
  match p with
  | [] => Some st
  | c :: p' => match step st c with
               | Some st' => read st' p'
               | None => None
               end
  end.

Definition compile (p : string) : option regex :=
  match read (Reader [] [] Normal) (chars p) with
  | Some (Reader [] items Normal) => Some (cat (rev items))
  | _ => None
  end.

End PyRe.

(** ** prompt.py *)
Module Prompt.
Import PyRe.

Definition quote : string := String (ascii_of_N 34) EmptyString.

(** The triple-quoted text of lines 20-48; a backslash at the end of a line
    joins it with the next one. *)
Definition SYSTEM_PROMPT : string :=
  "
For the following task, make plans that can solve the problem step by step. For each plan, indicate which external tool together with tool input to retrieve evidence. You can store the evidence into a variable #E that can be called by later tools. (Plan, #E1, Plan, #E2, Plan, ...)

You may ask the human to the following tools:

{tools}

The tools should be one of the following: [{tool_names}]

Please not that you don't need to use all the tools. You can use any of the tools you want.
Make sure to follow the pattern: #E = tool_name[tool_input]

For example,
Task: Determine which is greater: the result of subtracting 13 from 25, or the result of dividing 132 by 12.

Plan: Calculate the result of 25 minus 13.
#E1 = calculator_subtract[25, 13]

Plan: Calculate the result of 132 divided by 12.
#E2 = calculator_divide[132, 12]

Plan: Compare the results from steps 1 and 2 to determine which is greater.
#E3 = calculator_inequality[#E1, " +:+ quote +:+
  ">" +:+ quote +:+
  ", #E2]

Begin!
Describe your plans with rich details. Each Plan should be followed by only one #E.
".

Definition USER_PROMPT : string := "
task: {task}
".

(** The raw string of line 53. *)
Definition rewoo_plan_pattern : string :=
  "Plan:\s*(.+)\s*(#E\d+)\s*=\s*(\w+)\s*\[([^\]]+)\]".

Definition lit (s : string) : list regex := (λ c, One (Chr c)) <$> chars s.

(** The pattern as [re.compile] reads it. *)
Definition description_group : regex := Group (cat [Plus Dot]).
Definition evidence_group : regex := Group (cat (lit "#E" ++ [Plus Digit])).
Definition tool_group : regex := Group (cat [Plus Word]).
Definition input_group : regex := Group (cat [Plus (NoneOf (chars "]"))]).

Definition plan_regex : regex :=
  cat (lit "Plan:" ++
       [Star Space; description_group; Star Space; evidence_group; Star Space] ++
       lit "=" ++
       [Star Space; tool_group; Star Space] ++
       lit "[" ++ [input_group] ++ lit "]").

(** *** The plan parser

    Modelled from the spec: the Plan Parser lives in agent.py, which is not
    among the sources. The spec has it scan the whole planner text for the
    repeating pattern and emit the steps in the order their markers appear,
    which is [re.findall] on [rewoo_plan_pattern]; every match gives the
    tuple (description, evidence identifier, tool name, tool input). *)
Record PlanStep := Step {
  description : str;
  evidence_id : str;
  tool_name : str;
  tool_input : str
}.

Definition to_step (groups : list str) : option PlanStep :=
  match groups with
  | [d; e; t; i] => Some (Step d e t i)
  | _ => None
  end.

Definition parse_plan (text : str) : list PlanStep :=
  omap to_step (findall plan_regex text).

(** The text matches the pattern somewhere ([re.search] finds a match). *)
Definition plan_match (text : str) : bool := bool_decide (is_Some (search plan_regex text)).

(** *** Occurrences of the pattern, piece by piece *)
Record block := Block {
  gap1 : str; desc : str; gap2 : str; digits : str; gap3 : str;
  gap4 : str; name : str; gap5 : str; input : str
}.

Definition render (b : block) : str :=
  chars "Plan:" ++ gap1 b ++ desc b ++ gap2 b ++ chars "#E" ++ digits b ++ gap3 b ++
  chars "=" ++ gap4 b ++ name b ++ gap5 b ++ chars "[" ++ input b ++ chars "]".

(** The tuple of groups a match on the block reports. *)
Definition fields (b : block) : list str :=
  [desc b; chars "#E" ++ digits b; name b; input b].

Definition step_of (b : block) : PlanStep :=
  Step (desc b) (chars "#E" ++ digits b) (name b) (input b).

Definition some_in (k : charset) (s : str) : bool := nonempty_str s && all_in k s.

Definition gaps_ok (b : block) : bool :=
  all_in Space (gap1 b) && all_in Space (gap2 b) && all_in Space (gap3 b) &&
  all_in Space (gap4 b) && all_in Space (gap5 b).

(** What the pattern asks of the pieces. *)
Definition well_formed (b : block) : bool :=
  gaps_ok b && some_in Dot (desc b) && some_in Digit (digits b) &&
  some_in Word (name b) && some_in (NoneOf (chars "]")) (input b).

(** What the spec's grammar asks of them: a description, digits and an
    identifier, with blanks between the pieces, and any bracketed input at
    all. *)
Definition spec_well_formed (b : block) : bool :=
  gaps_ok b && nonempty_str (desc b) && some_in Digit (digits b) && some_in Word (name b).

Definition one_line (s : str) : bool := negb (mem newline s).

Definition spec_plan_line (line : str) : Prop :=
  ∃ pre b post, line = pre ++ render b ++ post ∧ spec_well_formed b = true.

(** The layout the system prompt shows: the description starts right after
    the blanks that follow [Plan:] and runs to the end of its line. *)
Definition line_layout (b : block) : bool :=
  match desc b, gap2 b with
  | d :: _, g :: _ => negb (is_space d) && Ascii.eqb g newline
  | _, _ => false
  end.

Fixpoint is_prefix (p s : str) : bool :=
  match p, s with
  | [], _ => true
  | a :: p', b :: s' => Ascii.eqb a b && is_prefix p' s'
  | _ :: _, [] => false
  end.

Fixpoint contains (needle s : str) : bool :=
  is_prefix needle s ||
  match s with
  | [] => false
  | _ :: s' => contains needle s'
  end.

Definition has_marker (s : str) : bool := contains (chars "Plan:") s.

(** A planner text: blocks, each preceded by prose, and closing prose. *)
Fixpoint plan_text (parts : list (str * block)) (closing : str) : str :=
  match parts with
  | [] => closing
  | (prose, b) :: parts' => prose ++ render b ++ plan_text parts' closing
  end.

Definition part_ok (part : str * block) : bool :=
  negb (has_marker part.1) && well_formed part.2.

Definition line_break : str := [newline].

(** *** The occurrence the greedy quantifiers settle on

    The blanks after [Plan:] and the description are greedy runs followed by
    the rest of the pattern: the engine takes the longest run first and gives
    back one character at a time until the rest matches. *)
Definition evidence_part : regex :=
  cat ([Star Space; evidence_group; Star Space] ++ lit "=" ++
       [Star Space; tool_group; Star Space] ++
       lit "[" ++ [input_group] ++ lit "]").

Definition description_part : regex := Cat description_group evidence_part.

(** The block from the end of its description on. *)
Definition after_desc (b : block) : str :=
  gap2 b ++ chars "#E" ++ digits b ++ gap3 b ++ chars "=" ++ gap4 b ++ name b ++
  gap5 b ++ chars "[" ++ input b ++ chars "]".

(** The block, followed by [rest], is the occurrence the engine settles on:
    the blanks after [Plan:] cannot be stretched into the description, nor
    the description further along its line, with the rest of the pattern
    still matching. *)
Definition settled_block (b : block) (rest : str) : bool :=
  negb (stretches Space description_part (desc b ++ after_desc b ++ rest)) &&
  negb (stretches Dot evidence_part (after_desc b ++ rest)).

(** No match of the pattern begins inside [prose] when [rest] follows. *)
Fixpoint quiet (prose rest : str) : bool :=
  match prose with
  | [] => true
  | _ :: prose' => negb (has_way plan_regex (prose ++ rest)) && quiet prose' rest
  end.

Fixpoint settled (parts : list (str * block)) (closing : str) : bool :=
  match parts with
  | [] => quiet closing []
  | (prose, b) :: parts' =>
      let rest := plan_text parts' closing in
      quiet prose (render b ++ rest) && well_formed b && settled_block b rest &&
      settled parts' closing
  end.


(** Two blocks as the system prompt lays them out, with prose around. *)
Definition prompt_layout : list (str * block) :=
  [ (chars "Sure, here is the plan." ++ line_break,
     Block (chars " ") (chars "Calculate the result of 25 minus 13.") line_break
           (chars "1") (chars " ") (chars " ") (chars "calculator_subtract") []
           (chars "25, 13"));
    (line_break ++ line_break,
     Block (chars " ") (chars "Halve #E1.") line_break
           (chars "2") (chars " ") (chars " ") (chars "calculator_divide") []
           (chars "#E1, 2")) ].


End Prompt.

(** ** register.py *)
Module Register.

Record ReWOOAgentWorkflowConfig := Config {
  tool_names : list string;
  llm_name : string;
  verbose : bool;
  retry_parsing_errors : bool;
  max_retries : Z;
  include_tool_input_schema_in_tool_description : bool;
  max_iterations : Z;
  description : string;
  system_prompt : option string;
  max_history : Z;
  use_openai_api : bool;
  additional_instructions : option string
}.

(** The defaults of the [Field] declarations; [llm_name] has none. *)
Definition default_config (llm : string) : ReWOOAgentWorkflowConfig :=
  {| tool_names := []; llm_name := llm; verbose := false;
     retry_parsing_errors := true; max_retries := 1;
     include_tool_input_schema_in_tool_description := true;
     max_iterations := 15; description := "ReWOO Agent Workflow";
     system_prompt := None; max_history := 15; use_openai_api := false;
     additional_instructions := None |}.

(** A chat prompt template: role and template text, or a placeholder. *)
Inductive message_template :=
| Msg (role template : string)
| MessagesPlaceholder (variable_name : string) (optional : bool).

Abbreviation ChatPromptTemplate := (list message_template).

(** prompt.py, line 68 *)
Definition rewoo_agent_prompt : ChatPromptTemplate :=
  [Msg "system" Prompt.SYSTEM_PROMPT; Msg "user" Prompt.USER_PROMPT].

Record Message := { role : string; content : string }.

Record ReWOOGraphState := GraphState { task : string; result : string }.

(** What the run does to the outside, in order. *)
Inductive event :=
| LogException (msg : string)
| GetLLM (name : string)
| GetTools (names : list string)
| BuildGraph (prompt : ChatPromptTemplate)
| TrimMessages (max_tokens : Z)
| Ainvoke (state : ReWOOGraphState) (recursion_limit : Z).

(** A computation that leaves a trace and returns or raises. *)
Definition io (A : Type) : Type := list event * outcome A.

#[global] Instance io_ret : MRet io := λ A a, ([], Return a).

#[global] Instance io_bind : MBind io := λ A B k m,
  match m.2 with
  | Return a => (m.1 ++ (k a).1, (k a).2)
  | Raise e => (m.1, Raise e)
  end.

Definition emit (e : event) : io unit := ([e], Return tt).

Definition call {A} (e : event) (r : outcome A) : io A := ([e], r).

Definition lift {A} (r : outcome A) : io A := ([], r).

Definition raise {A} (c : exn_class) (msg : string) : io A := ([], Raise (Exn c msg)).

(** try: body except Exception as ex: handler *)
Definition io_try {A} (body : io A) (handler : exn → io A) : io A :=
  match body.2 with
  | Return a => body
  | Raise e => (body.1 ++ (handler e).1, (handler e).2)
  end.

(** Python's truth value of a [str | None]. *)
Definition truthy (s : option string) : bool :=
  match s with
  | None | Some EmptyString => false
  | Some _ => true
  end.

Definition text (s : option string) : string := default EmptyString s.

(** str(ex) *)
Definition str_of (ex : exn) : string := exn_text ex.

(** AIQChatResponse.from_string: the response carries the text. *)
Definition from_string (s : string) : string := s.

Section Workflow.

(** The collaborators: the builder, the agent graph of agent.py (not among
    the sources) and LangChain's message trimming. *)
Context {LLM Tools CompiledGraph : Type}.
Variable validate_system_prompt : string → outcome bool.
Variable get_llm : string → outcome LLM.
Variable get_tools : list string → outcome Tools.
Variable build_graph :
  LLM → ChatPromptTemplate → Tools → bool → bool → bool → Z → outcome CompiledGraph.
Variable ainvoke : CompiledGraph → ReWOOGraphState → Z → outcome ReWOOGraphState.
Variable trim_messages : list Message → Z → outcome (list Message).

(** Lines 76-87: the prompt the graph is built with. *)
Definition planning_prompt (config : ReWOOAgentWorkflowConfig) : io ChatPromptTemplate :=
  if truthy (system_prompt config) then
    let _prompt_str := text (system_prompt config) in
    let _prompt_str :=
      if truthy (additional_instructions config)
      then _prompt_str +:+ " " +:+ text (additional_instructions config)
      else _prompt_str in
    valid_prompt ← lift (validate_system_prompt (text (system_prompt config)));
    if negb valid_prompt then
      emit (LogException "Invalid system_prompt");;
      raise ValueError "Invalid system_prompt"
    else
      mret [Msg "system" (text (system_prompt config)); Msg "user" Prompt.USER_PROMPT;
            MessagesPlaceholder "agent_scratchpad" true]
  else mret rewoo_agent_prompt.

(** Lines 76-102: everything the workflow does before it hands out the
    response function. *)
Definition ReWOO_agent_workflow (config : ReWOOAgentWorkflowConfig) : io CompiledGraph :=
  prompt ← planning_prompt config;
  llm ← call (GetLLM (llm_name config)) (get_llm (llm_name config));
  tools ← call (GetTools (tool_names config)) (get_tools (tool_names config));
  call (BuildGraph prompt)
       (build_graph llm prompt tools
          (include_tool_input_schema_in_tool_description config)
          (verbose config) (retry_parsing_errors config) (max_retries config)).

Definition recursion_limit (config : ReWOOAgentWorkflowConfig) : Z :=
  (max_iterations config + 1) * 2.

Definition first_message (messages : list Message) : io Message :=
  match messages with
  | m :: _ => mret m
  | [] => raise IndexError "list index out of range"
  end.

(** Lines 104-132. *)
Definition _response_fn (config : ReWOOAgentWorkflowConfig) (graph : CompiledGraph)
    (input_message : list Message) : io string :=
  io_try
    (messages ← call (TrimMessages (max_history config))
                     (trim_messages input_message (max_history config));
     m ← first_message messages;
     let state := GraphState (content m) EmptyString in
     state ← call (Ainvoke state (recursion_limit config))
                  (ainvoke graph state (recursion_limit config));
     let output_message := result state in
     mret (from_string output_message))
    (λ ex,
       emit (LogException ("ReWOO Agent failed with exception: " +:+ str_of ex));;
       if verbose config then mret (from_string (str_of ex))
       else mret (from_string "I seem to be having a problem.")).

End Workflow.

Definition generic_message : string := "I seem to be having a problem.".

(** A graph that needs [steps_needed] steps to reach [answer]: LangGraph
    raises GraphRecursionError when the limit is smaller. *)
Definition sample_graph (steps_needed : Z) (answer : string)
    (state : ReWOOGraphState) (recursion_limit : Z) : outcome ReWOOGraphState :=
  if recursion_limit <? steps_needed
  then Raise (Exn GraphRecursionError "Recursion limit reached without hitting a stop condition.")
  else Return (GraphState (task state) answer).

(** A graph whose planner output never parses. *)
Definition failing_graph (state : ReWOOGraphState) (recursion_limit : Z)
    : outcome ReWOOGraphState :=
  Raise (Exn ValueError "The planner output could not be parsed.").

Definition sample_request : list Message :=
  [ {| role := "user"; content := "Which is greater, 25 - 13 or 132 / 12?" |} ].

(** Message trimming that keeps the last [max_tokens] messages. *)
Definition keep_last (messages : list Message) (max_tokens : Z) : outcome (list Message) :=
  Return (drop (length messages - Z.to_nat max_tokens) messages).

Definition custom_config : ReWOOAgentWorkflowConfig :=
  {| tool_names := []; llm_name := "llm"; verbose := false;
     retry_parsing_errors := true; max_retries := 1;
     include_tool_input_schema_in_tool_description := true;
     max_iterations := 15; description := "ReWOO Agent Workflow";
     system_prompt := Some "Plan {task} with {tools}; pick from [{tool_names}].";
     max_history := 15; use_openai_api := false;
     additional_instructions := Some "Answer in French." |}.

Definition bad_config : ReWOOAgentWorkflowConfig :=
  {| tool_names := []; llm_name := "llm"; verbose := false;
     retry_parsing_errors := true; max_retries := 1;
     include_tool_input_schema_in_tool_description := true;
     max_iterations := 15; description := "ReWOO Agent Workflow";
     system_prompt := Some "Plan {task}; pick from [{tool_names}].";
     max_history := 15; use_openai_api := false;
     additional_instructions := None |}.

(** What the handler of [_response_fn] answers for an exception. *)
Definition failure_text (config : ReWOOAgentWorkflowConfig) (ex : exn) : string :=
  if verbose config then str_of ex else generic_message.

(** A check that turns every prompt down. *)
Definition reject_all (prompt : string) : outcome bool := Return false.

(** Modelled from the spec: the check of a caller-supplied system prompt
    (ReWOOAgentGraph.validate_system_prompt in agent.py, not among the
    sources) looks for the tool-list, tool-names and task placeholders. *)
Definition has_placeholders (prompt : string) : outcome bool :=
  Return (Prompt.contains (chars "{tools}") (chars prompt) &&
          Prompt.contains (chars "{tool_names}") (chars prompt) &&
          Prompt.contains (chars "{task}") (chars prompt)).

End Register.

(** ** job_store.py *)
Module JobStore.

(** [JobStatus] mixes in [str]: a status is its string value, and
    [update_status] stores whatever string it is given. *)
Abbreviation JobStatus := string.
Definition SUBMITTED : JobStatus := "submitted".
Definition RUNNING : JobStatus := "running".
Definition SUCCESS : JobStatus := "success".
Definition FAILURE : JobStatus := "failure".
Definition INTERRUPTED : JobStatus := "interrupted".
Definition NOT_FOUND : JobStatus := "not_found".

(** A point in time, in microseconds. *)
Abbreviation datetime := Z.

Record JobInfo := {
  job_id : string;
  status : JobStatus;
  config_file : string;
  error : option string;
  output_path : option string;
  created_at : datetime;
  updated_at : datetime;
  expiry_seconds : Z
}.

Definition MIN_EXPIRY : Z := 600.
Definition MAX_EXPIRY : Z := 86400.
Definition DEFAULT_EXPIRY : Z := 3600.

Definition ACTIVE_STATUS : gset string := {[ "running"; "submitted" ]}.

(** The instance: its one attribute, [_jobs]. *)
Record JobStore := Store { _jobs : gmap string JobInfo }.

Definition __init__ : JobStore := Store ∅.

(** [uuid4] and the two readings of the clock are inputs. *)
Definition create_job (self : JobStore) (uuid4 : string) (now1 now2 : datetime)
    (config_file : string) (job_id : option string) (expiry_seconds : Z)
    : string * JobStore :=
  let job_id := match job_id with
                | None => uuid4
                | Some id => id
                end in
  let clamped_expiry := Z.max MIN_EXPIRY (Z.min expiry_seconds MAX_EXPIRY) in
  let job := {| job_id := job_id; status := SUBMITTED; config_file := config_file;
                created_at := now1; updated_at := now2; error := None;
                output_path := None; expiry_seconds := clamped_expiry |} in
  (job_id, Store (<[job_id := job]> (_jobs self))).

Definition update_status (self : JobStore) (now : datetime) (job_id : string)
    (status : string) (error output_path : option string) : outcome JobStore :=
  match _jobs self !! job_id with
  | None => Raise (Exn ValueError ("Job " +:+ job_id +:+ " not found"))
  | Some job =>
      let job := {| job_id := JobStore.job_id job; status := status;
                    config_file := JobStore.config_file job; error := error;
                    output_path := output_path; created_at := created_at job;
                    updated_at := now; expiry_seconds := JobStore.expiry_seconds job |} in
      Return (Store (<[job_id := job]> (_jobs self)))
  end.

Definition get_job (self : JobStore) (job_id : string) : option JobInfo :=
  _jobs self !! job_id.

Definition is_active (job : JobInfo) : bool := bool_decide (status job ∈ ACTIVE_STATUS).

Definition get_expires_at (job : JobInfo) : option datetime :=
  if is_active job then None
  else Some (created_at job + JobStore.expiry_seconds job * 1000000).

(** *** The Python objects [cleanup_expired_jobs] handles

    The values of [_jobs] are pydantic models. A model has attributes; it
    defines neither [__getitem__] nor a [get] method, which are a dict's. *)
#[warnings="-register-all"]
Inductive pyobj :=
| PInt (z : Z)
| PDatetime (t : datetime)
| PDict (d : list (string * pyobj))
| PModel (job : JobInfo).

Fixpoint dict_lookup (d : list (string * pyobj)) (key : string) : option pyobj :=
  match d with
  | [] => None
  | (k, v) :: d' => if String.eqb k key then Some v else dict_lookup d' key
  end.

(** obj[key] *)
Definition getitem (obj : pyobj) (key : string) : outcome pyobj :=
  match obj with
  | PDict d => match dict_lookup d key with
               | Some v => Return v
               | None => Raise (Exn KeyError key)
               end
  | PModel _ => Raise (Exn TypeError "'JobInfo' object is not subscriptable")
  | PInt _ => Raise (Exn TypeError "'int' object is not subscriptable")
  | PDatetime _ => Raise (Exn TypeError "'datetime.datetime' object is not subscriptable")
  end.

(** obj.get(key, default) *)
Definition get_method (obj : pyobj) (key : string) (default : pyobj) : outcome pyobj :=
  match obj with
  | PDict d => Return (from_option id default (dict_lookup d key))
  | PModel _ => Raise (Exn AttributeError "'JobInfo' object has no attribute 'get'")
  | PInt _ => Raise (Exn AttributeError "'int' object has no attribute 'get'")
  | PDatetime _ =>
      Raise (Exn AttributeError "'datetime.datetime' object has no attribute 'get'")
  end.

Definition as_datetime (v : pyobj) : outcome datetime :=
  match v with
  | PDatetime t => Return t
  | _ => Raise (Exn TypeError "unsupported operand type(s)")
  end.

Definition as_int (v : pyobj) : outcome Z :=
  match v with
  | PInt z => Return z
  | _ => Raise (Exn TypeError "unsupported operand type(s)")
  end.

(** self.jobs: the instance has [_jobs] only. *)
Definition getattr_jobs (self : JobStore) : outcome (gmap string JobInfo) :=
  Raise (Exn AttributeError "'JobStore' object has no attribute 'jobs'").

(** [sorted(items, key=..., reverse=True)]: the key of every item is computed
    first, in order; the sort is stable, so with [reverse] equal keys keep
    their order. *)
Fixpoint keys_of {A} (key : A → outcome datetime) (items : list A)
    : outcome (list (datetime * A)) :=
  match items with
  | [] => Return []
  | x :: items' =>
      k ← key x;
      ks ← keys_of key items';
      Return ((k, x) :: ks)
  end.

Fixpoint insert_desc {A} (x : datetime * A) (sorted : list (datetime * A))
    : list (datetime * A) :=
  match sorted with
  | [] => [x]
  | y :: sorted' => if y.1 <=? x.1 then x :: sorted else y :: insert_desc x sorted'
  end.

Definition sorted_reverse {A} (key : A → outcome datetime) (items : list A)
    : outcome (list A) :=
  ks ← keys_of key items;
  Return (snd <$> foldr insert_desc [] ks).

(** The list comprehension of lines 136-139. *)
Fixpoint expired (now : datetime) (jobs_to_check : list (string * pyobj))
    : outcome (list string) :=
  match jobs_to_check with
  | [] => Return []
  | (job_id, job) :: more =>
      created ← getitem job "created_at" ≫= as_datetime;
      expiry ← get_method job "expiry_seconds" (PInt 3600) ≫= as_int;
      ids ← expired now more;
      Return (if expiry * 1000000 <? now - created then job_id :: ids else ids)
  end.

(** The loop of lines 141-142; the store is handed on from one deletion to
    the next. *)
Fixpoint delete_all (self : JobStore) (expired_ids : list string) : JobStore * outcome unit :=
  match expired_ids with
  | [] => (self, Return tt)
  | job_id :: more =>
      match getattr_jobs self with
      | Return jobs => delete_all (Store (delete job_id jobs)) more
      | Raise e => (self, Raise e)
      end
  end.

(** The store after the call, and how the call ended. *)
Definition cleanup_expired_jobs (self : JobStore) (now : datetime)
    : JobStore * outcome unit :=
  let finished_jobs := filter (λ item, ¬ is_active item.2) (_jobs self) in
  let checked :=
    sorted_finished ← sorted_reverse (λ item, getitem item.2 "created_at" ≫= as_datetime)
                                      (prod_map id PModel <$> map_to_list finished_jobs);
    let jobs_to_check := tail sorted_finished in
    expired now jobs_to_check in
  match checked with
  | Return expired_ids => delete_all self expired_ids
  | Raise e => (self, Raise e)
  end.

(** self._jobs.values(), in the order the dict is walked; Python walks a
    dict in insertion order, the map in its own. *)
Definition values (self : JobStore) : list JobInfo := snd <$> map_to_list (_jobs self).

Definition get_status (self : JobStore) (job_id : string) : option JobInfo :=
  _jobs self !! job_id.

Definition list_jobs (self : JobStore) : gmap string JobInfo := _jobs self.

(** max(iterable, key=...): a later item replaces the best one only when its
    key is greater, so of several largest the first is kept. *)
Definition later_of (best job : JobInfo) : JobInfo :=
  if created_at best <? created_at job then job else best.

Definition get_last_job (self : JobStore) : option JobInfo :=
  match values self with
  | [] => None
  | job :: jobs => Some (foldl later_of job jobs)
  end.

Definition get_jobs_by_status (self : JobStore) (status : string) : list JobInfo :=
  filter (λ job, JobStore.status job = status) (values self).

Definition get_all_jobs (self : JobStore) : list JobInfo := values self.

(** Every job sits under its own id. *)
Definition keyed (self : JobStore) : Prop :=
  ∀ id job, _jobs self !! id = Some job → job_id job = id.

(** A store with two jobs, one of them finished. *)
Definition two_jobs : JobStore :=
  Store {[ "a" := {| job_id := "a"; status := RUNNING; config_file := "a.yml";
                     error := None; output_path := None; created_at := 10;
                     updated_at := 10; expiry_seconds := 600 |};
           "b" := {| job_id := "b"; status := FAILURE; config_file := "b.yml";
                     error := Some "boom"; output_path := None; created_at := 20;
                     updated_at := 25; expiry_seconds := 3600 |} ]}.

(** A store whose one job has finished. *)
Definition finished_store : JobStore :=
  Store {[ "job-1" := {| job_id := "job-1"; status := SUCCESS; config_file := "config.yml";
                         error := None; output_path := Some "out"; created_at := 0;
                         updated_at := 5; expiry_seconds := 600 |} ]}.

End JobStore.

(** ** dataset_handler.py *)
Module DatasetHandler.

(** A Python value as it sits in a DataFrame cell or in an evaluation item:
    a missing value (None or NaN), a [str], or other JSON data. *)
#[warnings="-register-all"]
Inductive value :=
| Missing
| Text (s : string)
| Num (z : Z)
| Arr (items : list value)
| Obj (fields : list (string * value)).

(** A DataFrame, row by row; a cell a row does not list is missing. The
    dtype pandas gives a column is not part of the frame: what depends on it
    enters [get_eval_input_from_df] through [str_validate]. *)
Record DataFrame := Frame {
  columns : list string;
  rows : list (gmap string value)
}.

Record EvalDatasetStructureConfig := {
  disable : bool;
  question_key : string;
  answer_key : string;
  generated_answer_key : string;
  trajectory_key : string;
  expected_trajectory_key : string
}.

Record EvalDatasetConfig := {
  id_key : string;
  structure : EvalDatasetStructureConfig
}.

Record DatasetHandler := Handler {
  dataset_config : EvalDatasetConfig;
  reps : Z
}.

Record EvalInputItem := Item {
  id : value;
  input_obj : value;
  expected_output_obj : value;
  output_obj : value;
  trajectory : value;
  expected_trajectory : value
}.

Record EvalInput := Input { eval_input_items : list EvalInputItem }.

Definition is_structured_input (self : DatasetHandler) : bool :=
  negb (disable (structure (dataset_config self))).

Definition key_of (f : EvalDatasetStructureConfig → string) (self : DatasetHandler) : string :=
  f (structure (dataset_config self)).

(** *** The pandas operations used *)

Definition has_column (df : DataFrame) (key : string) : bool :=
  bool_decide (key ∈ columns df).

(** df.empty: no rows or no columns *)
Definition empty (df : DataFrame) : bool :=
  match rows df, columns df with
  | [], _ | _, [] => true
  | _, _ => false
  end.

Definition cell (row : gmap string value) (key : string) : value :=
  default Missing (row !! key).

(** df[key] *)
Definition column (df : DataFrame) (key : string) : outcome (list value) :=
  if has_column df key then Return ((λ row, cell row key) <$> rows df)
  else Raise (Exn KeyError key).

(** df[key] = values, for a column the frame already has *)
Definition set_column (df : DataFrame) (key : string) (values : list value) : DataFrame :=
  Frame (columns df) (zip_with (λ row v, <[key := v]> row) (rows df) values).

Definition notnull (v : value) : bool :=
  match v with Missing => false | _ => true end.

Definition fillna (fill : value) (v : value) : value :=
  if notnull v then v else fill.

Fixpoint lstrip (s : str) : str :=
  match s with
  | c :: s' => if PyRe.is_space c then lstrip s' else s
  | [] => []
  end.

(** str.strip() *)
Definition strip (s : string) : string :=
  string_of_list_ascii (rev (lstrip (rev (lstrip (chars s))))).

(** Series.str.strip(), cell by cell: what is not a [str] becomes NaN. *)
Definition str_strip (v : value) : value :=
  match v with
  | Text s => Text (strip s)
  | _ => Missing
  end.

(** Series.ne(other), cell by cell: NaN differs from everything. *)
Definition ne (other : string) (v : value) : bool :=
  match v with
  | Text s => negb (String.eqb s other)
  | _ => true
  end.

(** df[mask] *)
Definition select (df : DataFrame) (mask : list bool) : DataFrame :=
  Frame (columns df) (fst <$> filter (λ rm, rm.2 = true) (zip (rows df) mask)).

(** A question that is missing or holds nothing but whitespace. *)
Definition blank (v : value) : bool :=
  match v with
  | Missing => true
  | Text s => forallb PyRe.is_space (chars s)
  | _ => false
  end.

(** row.get(key, default) *)
Definition row_get (df : DataFrame) (row : gmap string value) (key : string)
    (default : value) : value :=
  if has_column df key then cell row key else default.

Section Handler.

(** pandas' Series.to_json and json.dumps(data, indent=..., ensure_ascii=...)
    are the libraries' own. *)
Variable to_json : gmap string value → string.
Variable json_dumps : value → Z → bool → string.

(** The check behind pandas' [Series.str]: [None] when the dtype pandas
    inferred for the column allows the string methods, else the text of the
    AttributeError the accessor raises. The check looks at the dtype, which a
    column of numbers or of NaN alone does not pass. *)
Variable str_validate : list value → option string.

(** EvalInputItem is a pydantic model declared outside these sources. Its
    constructor validates the arguments: [None] when they pass, else the text
    of the ValidationError raised. *)
Variable validate : EvalInputItem → option string.

Variable self : DatasetHandler.

(** Series.str *)
Definition str_accessor (series : list value) : outcome (list value) :=
  match str_validate series with
  | None => Return series
  | Some text => Raise (Exn AttributeError text)
  end.

(** EvalInputItem(id=..., input_obj=..., ...) *)
Definition new_item (arguments : EvalInputItem) : outcome EvalInputItem :=
  match validate arguments with
  | None => Return arguments
  | Some text => Raise (Exn ValidationError text)
  end.

(** The keyword arguments [create_eval_item] passes to the constructor. *)
Definition item_arguments (df : DataFrame) (row : gmap string value) (structured : bool)
    : EvalInputItem :=
  {| id := row_get df row (id_key (dataset_config self)) (Text "");
     input_obj := if negb structured then Text (to_json row)
                  else row_get df row (key_of question_key self) (Text "");
     expected_output_obj :=
       if structured then row_get df row (key_of answer_key self) (Text "") else Text "";
     output_obj :=
       if structured then row_get df row (key_of generated_answer_key self) (Text "")
       else Text "";
     trajectory :=
       if structured then row_get df row (key_of trajectory_key self) (Arr []) else Arr [];
     expected_trajectory :=
       if structured then row_get df row (key_of expected_trajectory_key self) (Arr [])
       else Arr [] |}.

Definition create_eval_item (df : DataFrame) (row : gmap string value) (structured : bool)
    : outcome EvalInputItem :=
  new_item (item_arguments df row structured).

Definition get_eval_input_from_df (input_df : DataFrame) : outcome EvalInput :=
  if empty input_df then Return (Input [])
  else
    let structured := is_structured_input self in
    input_df ←
      (if structured then
         answers ← column input_df (key_of answer_key self);
         let input_df :=
           set_column input_df (key_of answer_key self) (fillna (Text "") <$> answers) in
         questions ← column input_df (key_of question_key self);
         questions' ← column input_df (key_of question_key self);
         strings ← str_accessor questions';
         Return (select input_df
                   (zip_with andb (notnull <$> questions)
                                  (ne "" <$> (str_strip <$> strings))))
       else Return input_df);
    eval_input_items ←
      mapM (λ row, create_eval_item input_df row structured) (rows input_df);
    Return (Input eval_input_items).

(** A dict display: a key given twice keeps its first place and its last
    value. *)
Fixpoint dict_set (d : list (string * value)) (key : string) (v : value)
    : list (string * value) :=
  match d with
  | [] => [(key, v)]
  | (k, w) :: d' => if String.eqb k key then (k, v) :: d' else (k, w) :: dict_set d' key v
  end.

Definition dict (entries : list (string * value)) : value :=
  Obj (foldl (λ d kv, dict_set d kv.1 kv.2) [] entries).

(** A statement that evaluates an expression and drops its value. *)
Definition expression_statement {A B} (e : A) (then_ : B) : B := then_.

Definition publish_ground_truth (eval_input : EvalInput) : option string :=
  let indent := 2 in
  (if negb (is_structured_input self)
   then expression_statement (@None string)
   else λ continue, continue)
  (let data := Arr ((λ item, dict [(id_key (dataset_config self), id item);
                                   (key_of question_key self, input_obj item);
                                   (key_of answer_key self, expected_output_obj item)])
                      <$> eval_input_items eval_input) in
   Some (json_dumps data indent false)).

End Handler.

(** *** generate_ground_truth *)

(** An insertion-ordered dict with [str] keys: d.get(key) and d[key] = v,
    which keeps the place of a key that is already there. *)
Fixpoint dict_get {V} (d : list (string * V)) (key : string) : option V :=
  match d with
  | [] => None
  | (k, v) :: d' => if String.eqb k key then Some v else dict_get d' key
  end.

Fixpoint dict_put {V} (d : list (string * V)) (key : string) (v : V)
    : list (string * V) :=
  match d with
  | [] => [(key, v)]
  | (k, w) :: d' => if String.eqb k key then (k, v) :: d' else (k, w) :: dict_put d' key v
  end.

(** The text before the last occurrence of [sep], if there is one:
    s.rsplit(sep, 1)[0] when sep is in s. *)
Fixpoint before_last (sep s : str) : option str :=
  match s with
  | [] => if Prompt.is_prefix sep [] then Some [] else None
  | c :: s' =>
      match before_last sep s' with
      | Some pre => Some (c :: pre)
      | None => if Prompt.is_prefix sep s then Some [] else None
      end
  end.

(** rep_id.rsplit("_rep", 1)[0] if "_rep" in rep_id else rep_id *)
Definition original_id (rep_id : string) : string :=
  match before_last (chars "_rep") (chars rep_id) with
  | Some base => string_of_list_ascii base
  | None => rep_id
  end.

(** item.id == rep_id, for a [str] rep_id *)
Definition id_is (item : EvalInputItem) (rep_id : string) : bool :=
  match id item with
  | Text s => String.eqb s rep_id
  | _ => false
  end.

Section GroundTruth.

(** The evaluators report a [str] id and a number as score for every item;
    the arithmetic on scores, sum(scores) / len(scores) and the comparison
    [>], is Python's and enters as it is. *)
Context {Score : Type}.
Variable average : list Score → Score.
Variable greater : Score → Score → bool.

Record EvalOutputItem := OutputItem { scored_id : string; score : Score }.

Record EvalOutput := Output { eval_output_items : list EvalOutputItem }.

Variable self : DatasetHandler.

(** rep_scores[item.id].append(item.score) *)
Definition add_score (rep_scores : list (string * list Score)) (item : EvalOutputItem)
    : list (string * list Score) :=
  dict_put rep_scores (scored_id item)
           (default [] (dict_get rep_scores (scored_id item)) ++ [score item]).

(** The body of the loop of lines 227-230. *)
Definition keep_best (best_reps : list (string * (string * Score)))
    (rep : string * Score) : list (string * (string * Score)) :=
  let original_id := original_id rep.1 in
  match dict_get best_reps original_id with
  | None => dict_put best_reps original_id rep
  | Some best =>
      if greater rep.2 best.2 then dict_put best_reps original_id rep else best_reps
  end.

(** What every entry of best_reps satisfies: it is filed under the
    original id of its repetition, and the repetition is among [ids]. *)
Definition filed (ids : list string) (entry : string * (string * Score)) : Prop :=
  entry.1 = original_id entry.2.1 ∧ entry.2.1 ∈ ids.

(** The inner loop of lines 236-248: the first item with the id, if any. *)
Definition best_item (items : list EvalInputItem) (entry : string * (string * Score))
    : option EvalInputItem :=
  (λ item, {| id := Text entry.1; input_obj := input_obj item;
              expected_output_obj := output_obj item; output_obj := Missing;
              trajectory := Arr []; expected_trajectory := Arr [] |})
    <$> List.find (λ item, id_is item entry.2.1) items.

Definition generate_ground_truth (original_eval_input : EvalInput)
    (evaluation_results : list (string * EvalOutput)) : option EvalInput :=
  if negb (is_structured_input self) then None
  else if reps self =? 1 then
    Some (Input ((λ item, {| id := id item; input_obj := input_obj item;
                             expected_output_obj := expected_output_obj item;
                             output_obj := Missing;
                             trajectory := Arr []; expected_trajectory := Arr [] |})
                   <$> eval_input_items original_eval_input))
  else
    let rep_scores :=
      foldl add_score [] (evaluation_results ≫= λ result, eval_output_items result.2) in
    let avg_scores_per_rep := (λ entry, (entry.1, average entry.2)) <$> rep_scores in
    let best_reps := foldl keep_best [] avg_scores_per_rep in
    Some (Input (omap (best_item (eval_input_items original_eval_input)) best_reps)).

End GroundTruth.

Definition sample_handler (unstructured : bool) : DatasetHandler :=
  {| dataset_config :=
       {| id_key := "id";
          structure := {| disable := unstructured; question_key := "question";
                          answer_key := "answer";
                          generated_answer_key := "generated_answer";
                          trajectory_key := "intermediate_steps";
                          expected_trajectory_key := "expected_intermediate_steps" |} |};
     reps := 1 |}.

(** Three repetitions of one question, as two evaluators scored them, and
    the items they belong to. *)
Definition sample_results : list (string * @EvalOutput Z) :=
  [ ("accuracy", Output [OutputItem "q1_rep0" 1; OutputItem "q1_rep1" 3;
                         OutputItem "q1_rep2" 2]);
    ("relevance", Output [OutputItem "q1_rep0" 2; OutputItem "q1_rep1" 3]) ].

Definition sample_items : EvalInput :=
  Input [ Item (Text "q1_rep0") (Text "Why?") (Text "") (Text "because") (Arr []) (Arr []);
          Item (Text "q1_rep1") (Text "Why?") (Text "") (Text "since") (Arr []) (Arr []);
          Item (Text "q1_rep2") (Text "Why?") (Text "") (Text "as") (Arr []) (Arr []) ].

(** An exact stand-in for the mean: sixty times the sum over the count. *)
Definition sample_average (scores : list Z) : Z :=
  foldr Z.add 0 scores * 60 / Z.of_nat (length scores).

(** Stand-ins for the two library checks on the samples: string methods
    need a [str] in the column, and a trajectory must be a list. *)
Definition sample_str_validate (series : list value) : option string :=
  if existsb (λ v, match v with Text _ => true | _ => false end) series then None
  else Some "Can only use .str accessor with string values!".

Definition sample_validate (item : EvalInputItem) : option string :=
  match trajectory item, expected_trajectory item with
  | Arr _, Arr _ => None
  | _, _ => Some "Input should be a valid list"
  end.

(** A frame whose question column holds numbers only, and one with a
    trajectory cell that is missing. *)
Definition numeric_frame : DataFrame :=
  Frame ["id"; "question"; "answer"]
        [ {[ "id" := Num 1; "question" := Num 7; "answer" := Text "4" ]} ].

Definition trajectory_frame : DataFrame :=
  Frame ["id"; "question"; "answer"; "intermediate_steps"]
        [ {[ "id" := Num 1; "question" := Text "Why?"; "answer" := Text "4";
             "intermediate_steps" := Arr [] ]};
          {[ "id" := Num 2; "question" := Text "How?"; "answer" := Text "5" ]} ].

Definition sample_frame : DataFrame :=
  Frame ["id"; "question"; "answer"]
        [ {[ "id" := Num 1; "question" := Text "What is 2 + 2?"; "answer" := Text "4" ]};
          {[ "id" := Num 2; "question" := Text "   "; "answer" := Text "?" ]};
          {[ "id" := Num 3; "answer" := Text "none" ]};
          {[ "id" := Num 4; "question" := Text " Why? " ]} ].

End DatasetHandler.

(** * Properties *)

(** ** The matching engine *)
Module PyReFacts.
Import PyRe.

Lemma all_in_app k s t : all_in k (s ++ t) = all_in k s && all_in k t.
Proof. apply forallb_app. Qed.

Lemma star_sound k s w :
  w ∈ star k s → s = consumed w ++ rest w ∧ all_in k (consumed w) = true ∧ groups w = [].
Proof.
  revert w. induction s as [|c s IH]; intros w; simpl.
  - intros ->%list_elem_of_singleton. done.
  - destruct (accepts k c) eqn:Hc.
    + rewrite elem_of_app, list_elem_of_fmap, list_elem_of_singleton.
      intros [(v & -> & Hv) | ->]; [|done].
      destruct (IH _ Hv) as (Hs & Hall & Hg). simpl.
      rewrite Hc. simpl. by rewrite <- Hs.
    + intros ->%list_elem_of_singleton. done.
Qed.

Lemma star_complete k c t : all_in k c = true → Way c [] t ∈ star k (c ++ t).
Proof.
  induction c as [|x c IH]; simpl.
  - intros _. destruct t as [|y t]; simpl; [apply list_elem_of_here|].
    destruct (accepts k y); [apply elem_of_app; right|]; apply list_elem_of_here.
  - intros [Hx Hc]%andb_true_iff. rewrite Hx.
    apply elem_of_app. left. apply list_elem_of_fmap.
    exists (Way c [] t). split; [done|]. by apply IH.
Qed.

(** Every way the engine finds splits the text and is in the language. *)
Lemma exec_sound r : ∀ s w,
  w ∈ exec r s → s = consumed w ++ rest w ∧ lang r (consumed w) (groups w).
Proof.
  induction r as [|k|k|k|r1 IH1 r2 IH2|r IH]; intros s w; simpl.
  - intros ->%list_elem_of_singleton. done.
  - destruct s as [|c s]; simpl; [by intros ?%elem_of_nil|].
    destruct (accepts k c) eqn:Hc; [|by intros ?%elem_of_nil].
    intros ->%list_elem_of_singleton. simpl. eauto.
  - intros Hw. by apply star_sound in Hw.
  - destruct s as [|c s]; simpl; [by intros ?%elem_of_nil|].
    destruct (accepts k c) eqn:Hc; [|by intros ?%elem_of_nil].
    intros (v & -> & Hv)%list_elem_of_fmap.
    destruct (star_sound _ _ _ Hv) as (Hs & Hall & Hg). simpl.
    unfold all_in in *. simpl. rewrite Hc, Hall, <- Hs. done.
  - intros (w1 & Hw & Hw1)%list_elem_of_bind.
    apply list_elem_of_fmap in Hw as (w2 & -> & Hw2).
    destruct (IH1 _ _ Hw1) as (Hs1 & L1), (IH2 _ _ Hw2) as (Hs2 & L2). simpl.
    split; [by rewrite <- app_assoc, <- Hs2|].
    by exists (consumed w1), (consumed w2), (groups w1), (groups w2).
  - intros (v & -> & Hv)%list_elem_of_fmap.
    destruct (IH _ _ Hv) as (Hs & L). simpl. eauto.
Qed.

(** Every member of the language in front of the text is found. *)
Lemma exec_complete r : ∀ c gs t, lang r c gs → Way c gs t ∈ exec r (c ++ t).
Proof.
  induction r as [|k|k|k|r1 IH1 r2 IH2|r IH]; intros c gs t; simpl.
  - intros [-> ->]. apply list_elem_of_here.
  - intros (x & -> & Hx & ->). simpl. rewrite Hx. apply list_elem_of_here.
  - intros [Hc ->]. by apply star_complete.
  - intros (Hne & Hc & ->). destruct c as [|x c]; [done|].
    unfold all_in in Hc. simpl in *. apply andb_true_iff in Hc as [Hx Hc]. rewrite Hx.
    apply list_elem_of_fmap. exists (Way c [] t). split; [done|]. by apply star_complete.
  - intros (c1 & c2 & g1 & g2 & -> & -> & L1 & L2).
    apply list_elem_of_bind. exists (Way c1 g1 (c2 ++ t)). split.
    + apply list_elem_of_fmap. exists (Way c2 g2 t). split; [done|]. by apply IH2.
    + rewrite <- app_assoc. by apply IH1.
  - intros (g & -> & L). apply list_elem_of_fmap.
    exists (Way c g t). split; [done|]. by apply IH.
Qed.

(** *** The way the engine tries first *)

Lemma first_star k c t :
  all_in k c = true → stops k t = true → first (Star k) (c ++ t) (Way c [] t).
Proof.
  unfold first, match_at. intros Hc Ht. induction c as [|x c IH]; simpl in *.
  - destruct t as [|y t]; [done|].
    simpl in *. by destruct (accepts k y).
  - apply andb_true_iff in Hc as [Hx Hc]. rewrite Hx.
    specialize (IH Hc). destruct (star k (c ++ t)); by simplify_eq/=.
Qed.

Lemma first_plus k c t :
  c ≠ [] → all_in k c = true → stops k t = true → first (Plus k) (c ++ t) (Way c [] t).
Proof.
  unfold first, match_at. intros Hne Hc Ht. destruct c as [|x c]; [done|].
  simpl in *. apply andb_true_iff in Hc as [Hx Hc]. rewrite Hx.
  pose proof (first_star k c t Hc Ht) as H. unfold first, match_at in H.
  simpl in H. destruct (star k (c ++ t)); by simplify_eq/=.
Qed.

Lemma first_one k c t : accepts k c = true → first (One k) (c :: t) (Way [c] [] t).
Proof. unfold first, match_at. simpl. by intros ->. Qed.

Lemma first_eps s : first Eps s (Way [] [] s).
Proof. done. Qed.

Lemma first_cat r1 r2 s w1 w2 :
  first r1 s w1 → first r2 (rest w1) w2 → first (Cat r1 r2) s (seq w1 w2).
Proof.
  unfold first, match_at. simpl. intros H1 H2.
  destruct (exec r1 s) as [|v ws]; simplify_eq/=.
  destruct (exec r2 (rest w1)) as [|v2 ws2]; simplify_eq/=. done.
Qed.

Lemma first_group r s w : first r s w → first (Group r) s (capture w).
Proof.
  unfold first, match_at. simpl. intros H.
  destruct (exec r s); by simplify_eq/=.
Qed.

(** *** Backtracking: the longer runs fail, a shorter one is reported *)

Lemma head_bind_skip {A B} (l1 : list A) x l2 (f : A → list B) z zs :
  (∀ y, y ∈ l1 → f y = []) → f x = z :: zs →
  head ((l1 ++ x :: l2) ≫= f) = Some z.
Proof.
  intros Hl1 Hx. induction l1 as [|y l1 IH]; simpl.
  - by rewrite Hx.
  - rewrite (Hl1 y) by apply list_elem_of_here. simpl.
    apply IH. intros y' Hy'. apply Hl1. by apply list_elem_of_further.
Qed.

(** The ways of a greedy run on [c ++ t]: first those that run on into [t],
    then the one that stops after [c]. *)
Lemma star_ways k c t :
  all_in k c = true →
  ∃ l1 l2, star k (c ++ t) = l1 ++ Way c [] t :: l2 ∧
    ∀ w, w ∈ l1 → ∃ p, p ≠ [] ∧ all_in k p = true ∧ t = p ++ rest w.
Proof.
  induction c as [|x c IH]; simpl.
  - intros _. destruct t as [|y t]; simpl.
    + exists [], []. split; [done|]. by intros w ?%elem_of_nil.
    + destruct (accepts k y) eqn:Hy.
      * exists (push y <$> star k t), []. split; [done|].
        intros w (v & -> & Hv)%list_elem_of_fmap.
        destruct (star_sound _ _ _ Hv) as (Hs & Hall & _).
        exists (y :: consumed v). split; [done|]. simpl. rewrite Hy, Hall.
        split; [done|]. by rewrite <- Hs.
      * exists [], []. split; [done|]. by intros w ?%elem_of_nil.
  - intros [Hx Hc]%andb_true_iff. rewrite Hx.
    destruct (IH Hc) as (l1 & l2 & -> & Hl1).
    exists (push x <$> l1), ((push x <$> l2) ++ [Way [] [] (x :: c ++ t)]).
    split; [by rewrite fmap_app, <- app_assoc|].
    intros w (v & -> & Hv)%list_elem_of_fmap. apply (Hl1 _ Hv).
Qed.

Lemma plus_ways k c t :
  c ≠ [] → all_in k c = true →
  ∃ l1 l2, plus k (c ++ t) = l1 ++ Way c [] t :: l2 ∧
    ∀ w, w ∈ l1 → ∃ p, p ≠ [] ∧ all_in k p = true ∧ t = p ++ rest w.
Proof.
  intros Hne Hc. destruct c as [|x c]; [done|]. simpl in *.
  apply andb_true_iff in Hc as [Hx Hc]. rewrite Hx.
  destruct (star_ways k c t Hc) as (l1 & l2 & -> & Hl1).
  exists (push x <$> l1), (push x <$> l2). split; [by rewrite fmap_app|].
  intros w (v & -> & Hv)%list_elem_of_fmap. apply (Hl1 _ Hv).
Qed.

Lemma has_way_false r s : has_way r s = false → exec r s = [].
Proof. unfold has_way. by destruct (exec r s). Qed.

Lemma stretches_false k r p : ∀ s,
  stretches k r (p ++ s) = false → p ≠ [] → all_in k p = true → exec r s = [].
Proof.
  induction p as [|c p IH]; intros s H Hne Hp; [done|]. simpl in *.
  apply andb_true_iff in Hp as [Hc Hp]. rewrite Hc in H. simpl in H.
  apply orb_false_iff in H as [Hway H].
  destruct p as [|c' p]; [by apply has_way_false|]. by apply IH.
Qed.

(** A greedy run followed by [r]: when no longer run lets [r] match, the
    engine reports the run [c] and what [r] reports after it. *)
Lemma first_star_settled k r c t w :
  all_in k c = true → stretches k r t = false → first r t w →
  first (Cat (Star k) r) (c ++ t) (seq (Way c [] t) w).
Proof.
  unfold first, match_at. intros Hc Ht Hw. simpl.
  destruct (star_ways k c t Hc) as (l1 & l2 & -> & Hl1).
  destruct (exec r t) as [|v ws] eqn:E; simplify_eq/=.
  apply (head_bind_skip _ _ _ _ _ (seq (Way c [] t) <$> ws)).
  - intros y Hy. destruct (Hl1 _ Hy) as (p & Hne & Hp & Hrest).
    rewrite Hrest in Ht. by rewrite (stretches_false _ _ _ _ Ht Hne Hp).
  - simpl. by rewrite E.
Qed.

Lemma exec_group_plus k s :
  exec (Group (Cat (Plus k) Eps)) s =
    (λ w, Way (consumed w ++ []) ((consumed w ++ []) :: groups w ++ []) (rest w)) <$> plus k s.
Proof.
  cbn [exec]. generalize (plus k s). intros l.
  induction l as [|w l IH]; [done|].
  rewrite bind_cons, fmap_app, IH. done.
Qed.

Lemma first_group_plus_settled k r c t w :
  c ≠ [] → all_in k c = true → stretches k r t = false → first r t w →
  first (Cat (Group (Cat (Plus k) Eps)) r) (c ++ t) (seq (Way c [c] t) w).
Proof.
  unfold first, match_at. intros Hne Hc Ht Hw.
  change (exec (Cat (Group (Cat (Plus k) Eps)) r) (c ++ t))
    with (w1 ← exec (Group (Cat (Plus k) Eps)) (c ++ t); seq w1 <$> exec r (rest w1)).
  rewrite exec_group_plus.
  destruct (plus_ways k c t Hne Hc) as (l1 & l2 & -> & Hl1).
  destruct (exec r t) as [|v ws] eqn:E; simplify_eq/=.
  rewrite fmap_app, fmap_cons.
  apply (head_bind_skip _ _ _ _ _ (seq (Way c [c] t) <$> ws)).
  - intros y (v' & -> & Hv')%list_elem_of_fmap. simpl.
    destruct (Hl1 _ Hv') as (p & Hp0 & Hp & Hrest).
    rewrite Hrest in Ht. by rewrite (stretches_false _ _ _ _ Ht Hp0 Hp).
  - simpl. rewrite app_nil_r, E. done.
Qed.

(** *** Backtracking, read backwards: what the reported way tells *)







(** *** Scanning *)

Lemma scan_skip r pre t : scan r (pre ++ t) (length pre) = scan r t 0.
Proof. induction pre as [|c pre IH]; [done|]. simpl. apply IH. Qed.

Lemma scan_miss r c s : exec r (c :: s) = [] → scan r (c :: s) 0 = scan r s 0.
Proof. simpl. by intros ->. Qed.

Lemma scan_hit r s w :
  first r s w → nonempty w = true →
  scan r s 0 = item w :: scan r (rest w) 0.
Proof.
  unfold first, match_at. intros Hw Hne.
  assert (w ∈ exec r s) as Hin.
  { destruct (exec r s); simplify_eq/=. apply list_elem_of_here. }
  apply exec_sound in Hin as [Hs _].
  destruct s as [|c s]; simpl.
  - destruct (exec r []); simplify_eq/=.
    destruct w as [[|] ? ?]; simplify_eq/=.
  - destruct (exec r (c :: s)) as [|v ws]; simplify_eq/=. rewrite Hne.
    f_equal. destruct w as [[|x cs] gs t]; simplify_eq/=.
    apply scan_skip.
Qed.

End PyReFacts.

(** ** The plan pattern *)
Module PromptFacts.
Import PyRe Prompt PyReFacts.

(** The pattern of line 53 reads as [plan_regex]. *)
Lemma compile_rewoo_plan_pattern : compile rewoo_plan_pattern = Some plan_regex.
Proof. reflexivity. Qed.

(** The prompt's own example parses into its three steps. *)
Example parse_system_prompt_example :
  parse_plan (chars SYSTEM_PROMPT) =
    [ Step (chars "Calculate the result of 25 minus 13.") (chars "#E1")
           (chars "calculator_subtract") (chars "25, 13");
      Step (chars "Calculate the result of 132 divided by 12.") (chars "#E2")
           (chars "calculator_divide") (chars "132, 12");
      Step (chars "Compare the results from steps 1 and 2 to determine which is greater.")
           (chars "#E3") (chars "calculator_inequality")
           (chars ("#E1, " +:+ quote +:+ ">" +:+ quote +:+ ", #E2")) ].
Proof. vm_compute. reflexivity. Qed.

Lemma some_in_cons k s : some_in k s = true ↔ s ≠ [] ∧ all_in k s = true.
Proof.
  unfold some_in. rewrite andb_true_iff.
  destruct s; simpl; (split; intros [? ?]; [done || by split ..]).
Qed.

Lemma lang_lit x r c gs :
  lang (Cat (One (Chr x)) r) c gs ↔ ∃ c', c = x :: c' ∧ lang r c' gs.
Proof.
  simpl. split.
  - intros (c1 & c2 & g1 & g2 & -> & -> & (y & -> & Hy & ->) & L).
    apply Ascii.eqb_eq in Hy as ->. eauto.
  - intros (c' & -> & L). exists [x], c', [], gs. repeat split; [|done].
    exists x. by rewrite Ascii.eqb_refl.
Qed.

Lemma lang_star k r c gs :
  lang (Cat (Star k) r) c gs ↔
  ∃ c1 c2, c = c1 ++ c2 ∧ all_in k c1 = true ∧ lang r c2 gs.
Proof.
  simpl. split.
  - intros (c1 & c2 & g1 & g2 & -> & -> & (H1 & ->) & L). eauto.
  - intros (c1 & c2 & -> & H1 & L). by exists c1, c2, [], gs.
Qed.

Lemma lang_group_plus k r c gs :
  lang (Cat (Group (Cat (Plus k) Eps)) r) c gs ↔
  ∃ c1 c2 gs', c = c1 ++ c2 ∧ gs = c1 :: gs' ∧ some_in k c1 = true ∧ lang r c2 gs'.
Proof.
  setoid_rewrite some_in_cons. simpl. split.
  - intros (c1 & c2 & g1 & g2 & -> & -> & (g & -> & L1) & L).
    destruct L1 as (a & e & ga & ge & -> & -> & (Hne & Ha & ->) & -> & ->).
    rewrite app_nil_r in *. simpl. eauto 10.
  - intros (c1 & c2 & gs' & -> & -> & (Hne & H1) & L).
    exists c1, c2, [c1], gs'. repeat split; [|done].
    exists []. split; [done|]. exists c1, [], [], []. by rewrite app_nil_r.
Qed.

Lemma lang_eps c gs : lang Eps c gs ↔ c = [] ∧ gs = [].
Proof. done. Qed.

Lemma lang_evidence r c gs :
  lang (Cat evidence_group r) c gs ↔
  ∃ d c2 gs', c = chars "#E" ++ d ++ c2 ∧ gs = (chars "#E" ++ d) :: gs' ∧
              some_in Digit d = true ∧ lang r c2 gs'.
Proof.
  setoid_rewrite some_in_cons.
  change (lang (Cat evidence_group r) c gs) with
    (∃ c1 c2 g1 g2, c = c1 ++ c2 ∧ gs = g1 ++ g2 ∧
       (∃ g, g1 = c1 :: g ∧
          lang (Cat (One (Chr "#")) (Cat (One (Chr "E")) (Cat (Plus Digit) Eps))) c1 g) ∧
       lang r c2 g2).
  setoid_rewrite lang_lit. setoid_rewrite lang_lit. split.
  - intros (c1 & c2 & g1 & g2 & -> & -> & (g & -> & L1) & L).
    destruct L1 as (c' & -> & c'' & -> & L1). simpl in L1.
    destruct L1 as (a & e & ga & ge & -> & -> & (Hne & Ha & ->) & -> & ->).
    rewrite app_nil_r. simpl. eauto 10.
  - intros (d & c2 & gs' & -> & -> & (Hne & Hd) & L).
    exists (chars "#E" ++ d), c2, [chars "#E" ++ d], gs'. repeat split; [|done].
    exists []. split; [done|]. eexists. split; [done|]. eexists. split; [done|].
    simpl. exists d, [], [], []. by rewrite app_nil_r.
Qed.

(** The language of the pattern is the set of well-formed blocks. *)
Lemma lang_plan_regex c gs :
  lang plan_regex c gs ↔ ∃ b, c = render b ∧ gs = fields b ∧ well_formed b = true.
Proof.
  split.
  - intros L. set (r := plan_regex) in L. vm_compute in r. subst r.
    do 5 apply lang_lit in L as (? & -> & L).
    apply lang_star in L as (g1 & ? & -> & Hg1 & L).
    apply lang_group_plus in L as (d & ? & ? & -> & -> & Hd & L).
    apply lang_star in L as (g2 & ? & -> & Hg2 & L).
    apply lang_evidence in L as (n & ? & ? & -> & -> & Hn & L).
    apply lang_star in L as (g3 & ? & -> & Hg3 & L).
    apply lang_lit in L as (? & -> & L).
    apply lang_star in L as (g4 & ? & -> & Hg4 & L).
    apply lang_group_plus in L as (t & ? & ? & -> & -> & Ht & L).
    apply lang_star in L as (g5 & ? & -> & Hg5 & L).
    apply lang_lit in L as (? & -> & L).
    apply lang_group_plus in L as (i & ? & ? & -> & -> & Hi & L).
    apply lang_lit in L as (? & -> & [-> ->]).
    exists (Block g1 d g2 n g3 g4 t g5 i). split; [done|]. split; [done|].
    unfold well_formed, gaps_ok. simpl.
    by rewrite Hg1, Hg2, Hg3, Hg4, Hg5, Hd, Hn, Ht, Hi.
  - intros ([g1 d g2 n g3 g4 t g5 i] & -> & -> & Hwf).
    unfold well_formed, gaps_ok in Hwf. simpl in Hwf.
    repeat (apply andb_true_iff in Hwf as [Hwf ?]).
    set (r := plan_regex). vm_compute in r. subst r.
    do 5 (apply lang_lit; eexists; split; [reflexivity|]).
    apply lang_star. do 2 eexists. split; [reflexivity|]. split; [done|].
    apply lang_group_plus. do 3 eexists. split; [reflexivity|]. do 2 (split; [done|]).
    apply lang_star. do 2 eexists. split; [reflexivity|]. split; [done|].
    apply lang_evidence. do 3 eexists. split; [reflexivity|]. do 2 (split; [done|]).
    apply lang_star. do 2 eexists. split; [reflexivity|]. split; [done|].
    apply lang_lit. eexists. split; [reflexivity|].
    apply lang_star. do 2 eexists. split; [reflexivity|]. split; [done|].
    apply lang_group_plus. do 3 eexists. split; [reflexivity|]. do 2 (split; [done|]).
    apply lang_star. do 2 eexists. split; [reflexivity|]. split; [done|].
    apply lang_lit. eexists. split; [reflexivity|].
    apply lang_group_plus. do 3 eexists. split; [reflexivity|]. do 2 (split; [done|]).
    apply lang_lit. eexists. split; [reflexivity|]. done.
Qed.

Lemma search_is_Some r s :
  is_Some (search r s) ↔ ∃ pre t, s = pre ++ t ∧ exec r t ≠ [].
Proof.
  induction s as [|c s IH]; simpl; unfold match_at.
  - destruct (exec r []) as [|w ws] eqn:E; simpl; split.
    + by intros [? ?].
    + intros ([|] & t & Hs & Ht); by simplify_eq/=.
    + intros _. exists [], []. by rewrite E.
    + eauto.
  - destruct (exec r (c :: s)) as [|w ws] eqn:E; simpl.
    + rewrite IH. split.
      * intros (pre & t & -> & Ht). by exists (c :: pre), t.
      * intros ([|x pre] & t & Hs & Ht); simplify_eq/=; eauto.
    + split; [|eauto]. intros _. exists [], (c :: s). by rewrite E.
Qed.

(** C1 (as amended): a text matches the plan pattern exactly when it
    contains, in order, [Plan:], blanks, a non-empty description free of line
    breaks, blanks, [#E] and one or more digits, blanks, [=], blanks, one or
    more word characters, blanks, and a bracketed input that is non-empty and
    free of [[]]]; blanks may be line breaks, so a match may span lines. *)
Theorem plan_match_iff_block text :
  plan_match text = true ↔
  ∃ pre b post, text = pre ++ render b ++ post ∧ well_formed b = true.
Proof.
  unfold plan_match. rewrite bool_decide_eq_true, search_is_Some. split.
  - intros (pre & t & -> & Hne).
    destruct (exec plan_regex t) as [|w ws] eqn:E; [done|].
    assert (w ∈ exec plan_regex t) as Hw by (rewrite E; apply list_elem_of_here).
    apply exec_sound in Hw as [Ht L].
    apply lang_plan_regex in L as (b & Hc & _ & Hwf).
    exists pre, b, (rest w). by rewrite Ht, Hc.
  - intros (pre & b & post & -> & Hwf). exists pre, (render b ++ post).
    split; [done|].
    assert (Way (render b) (fields b) post ∈ exec plan_regex (render b ++ post)) as Hw.
    { apply exec_complete, lang_plan_regex. eauto. }
    intros E. rewrite E in Hw. by apply elem_of_nil in Hw.
Qed.

(** C1, as stated, fails: a line with an empty bracketed input has every
    piece the claim lists and yet does not match; and a text of two lines,
    the layout of the system prompt's example, does match. *)
Lemma plan_line_empty_input :
  let line := chars "Plan: x #E1 = t[]" in
  let text := chars "Plan: x" ++ line_break ++ chars "#E1 = t[a]" in
  (one_line line = true ∧ spec_plan_line line ∧ plan_match line = false) ∧
  (one_line text = false ∧ plan_match text = true).
Proof.
  split; [|by vm_compute].
  split; [reflexivity|]. split; [|by vm_compute].
  exists [], (Block (chars " ") (chars "x") (chars " ") (chars "1") (chars " ")
                    (chars " ") (chars "t") [] []), [].
  split; reflexivity.
Qed.

(** *** The first way, piece by piece, when no greedy choice is undone *)

Lemma first_lit x r t w :
  first r t w → first (Cat (One (Chr x)) r) (x :: t) (seq (Way [x] [] t) w).
Proof.
  intros H. apply (first_cat _ _ _ (Way [x] [] t)); [|done].
  apply first_one. simpl. apply Ascii.eqb_refl.
Qed.

Lemma first_gap k r c t w :
  all_in k c = true → stops k t = true → first r t w →
  first (Cat (Star k) r) (c ++ t) (seq (Way c [] t) w).
Proof.
  intros Hc Ht H. apply (first_cat _ _ _ (Way c [] t)); [|done].
  by apply first_star.
Qed.

Lemma first_group_plus k r c t w :
  some_in k c = true → stops k t = true → first r t w →
  first (Cat (Group (Cat (Plus k) Eps)) r) (c ++ t) (seq (Way c [c] t) w).
Proof.
  intros [Hne Hc]%some_in_cons Ht H.
  apply (first_cat _ _ _ (Way c [c] t)); [|done].
  apply (first_group _ _ (Way c [] t)).
  replace (Way c [] t) with (seq (Way c [] t) (Way [] [] t))
    by (unfold seq; simpl; by rewrite app_nil_r).
  apply first_cat; [|done]. by apply first_plus.
Qed.

Lemma first_evidence r d t w :
  some_in Digit d = true → stops Digit t = true → first r t w →
  first (Cat evidence_group r) (chars "#E" ++ d ++ t)
        (seq (Way (chars "#E" ++ d) [chars "#E" ++ d] t) w).
Proof.
  intros [Hne Hd]%some_in_cons Ht H.
  apply (first_cat _ _ _ (Way (chars "#E" ++ d) [chars "#E" ++ d] t)); [|done].
  apply (first_group _ _ (Way (chars "#E" ++ d) [] t)).
  apply (first_lit _ _ _ (Way ("E"%char :: d) [] t)).
  apply (first_lit _ _ _ (Way d [] t)).
  replace (Way d [] t) with (seq (Way d [] t) (Way [] [] t))
    by (unfold seq; simpl; by rewrite app_nil_r).
  apply first_cat; [|done]. by apply first_plus.
Qed.

Lemma space_not_digit c : is_space c = true → is_digit c = false.
Proof. by destruct c as [[] [] [] [] [] [] [] []]. Qed.

Lemma space_not_word c : is_space c = true → is_word c = false.
Proof. by destruct c as [[] [] [] [] [] [] [] []]. Qed.

Lemma word_not_space c : is_word c = true → is_space c = false.
Proof. by destruct c as [[] [] [] [] [] [] [] []]. Qed.

Lemma stops_gap k g x t :
  (∀ c, is_space c = true → accepts k c = false) →
  all_in Space g = true → accepts k x = false → stops k (g ++ x :: t) = true.
Proof.
  intros Hk Hg Hx. destruct g as [|c g]; simpl in *.
  - by rewrite Hx.
  - apply andb_true_iff in Hg as [Hc _]. by rewrite (Hk _ Hc).
Qed.

(** *** Prose without the marker gives no match *)

Lemma marker_prefix b t : is_prefix (chars "Plan:") (render b ++ t) = true.
Proof. done. Qed.

Lemma exec_needs_marker s :
  is_prefix (chars "Plan:") s = false → exec plan_regex s = [].
Proof.
  intros Hs. destruct (exec plan_regex s) as [|w ws] eqn:E; [done|].
  assert (w ∈ exec plan_regex s) as Hw by (rewrite E; apply list_elem_of_here).
  apply exec_sound in Hw as [Ht L].
  apply lang_plan_regex in L as (b & Hc & _). rewrite Ht, Hc in Hs. done.
Qed.

(** The marker cannot start in the prose and end in what follows: none of
    its proper suffixes starts the marker again. *)
Lemma marker_straddle c q t :
  is_prefix (chars "Plan:") (c :: q) = false →
  t = [] ∨ is_prefix (chars "Plan:") t = true →
  is_prefix (chars "Plan:") (c :: q ++ t) = false.
Proof.
  change (chars "Plan:") with ["P"; "l"; "a"; "n"; ":"]%char.
  intros Hq Ht.
  assert (t = [] ∨ ∃ t', t = "P"%char :: t') as [->|[t' ->]].
  { destruct Ht as [->|Ht]; [by left|]. destruct t as [|x t]; [done|].
    cbn [is_prefix] in Ht. apply andb_true_iff in Ht as [->%Ascii.eqb_eq _]. eauto. }
  { by rewrite app_nil_r. }
  clear Ht. cbn [is_prefix] in *.
  destruct (Ascii.eqb "P" c); [|done]. cbn [andb] in *.
  destruct q as [|c1 q]; [done|]. cbn [is_prefix app] in *.
  destruct (Ascii.eqb "l" c1); [|done]. cbn [andb] in *.
  destruct q as [|c2 q]; [done|]. cbn [is_prefix app] in *.
  destruct (Ascii.eqb "a" c2); [|done]. cbn [andb] in *.
  destruct q as [|c3 q]; [done|]. cbn [is_prefix app] in *.
  destruct (Ascii.eqb "n" c3); [|done]. cbn [andb] in *.
  destruct q as [|c4 q]; [done|]. cbn [is_prefix app] in *.
  destruct (Ascii.eqb ":" c4); done.
Qed.

Lemma scan_prose prose t :
  has_marker prose = false →
  t = [] ∨ is_prefix (chars "Plan:") t = true →
  scan plan_regex (prose ++ t) 0 = scan plan_regex t 0.
Proof.
  intros Hp Ht. induction prose as [|c q IH]; [done|].
  unfold has_marker in *. simpl contains in Hp.
  apply orb_false_iff in Hp as [Hc Hq].
  change ((c :: q) ++ t) with (c :: q ++ t).
  rewrite scan_miss; [by apply IH|].
  apply exec_needs_marker. by apply marker_straddle.
Qed.

Lemma to_step_fields b l :
  omap to_step (fields b :: l) = step_of b :: omap to_step l.
Proof. done. Qed.

Lemma scan_sound_step text :
  (∀ s, (length s < length text)%nat → ∃ parts closing,
     s = plan_text parts closing ∧
     forallb (λ part, well_formed part.2) parts = true ∧
     omap to_step (scan plan_regex s 0) = (λ part, step_of part.2) <$> parts) →
  ∃ parts closing,
    text = plan_text parts closing ∧
    forallb (λ part, well_formed part.2) parts = true ∧
    omap to_step (scan plan_regex text 0) = (λ part, step_of part.2) <$> parts.
Proof.
  intros IH. destruct (exec plan_regex text) as [|w ws] eqn:E.
  - destruct text as [|c s].
    + exists [], []. by rewrite <- (app_nil_r []), scan_prose by auto.
    + rewrite scan_miss by done.
      destruct (IH s) as (parts & closing & -> & Hwf & Hsteps); [simpl; lia|].
      rewrite Hsteps. destruct parts as [|[prose b] parts].
      * by exists [], (c :: closing).
      * by exists ((c :: prose, b) :: parts), closing.
  - assert (w ∈ exec plan_regex text) as Hw by (rewrite E; apply list_elem_of_here).
    apply exec_sound in Hw as [Htext L].
    apply lang_plan_regex in L as (b & Hc & Hg & Hwf).
    assert (first plan_regex text w) as Hfirst by (unfold first, match_at; by rewrite E).
    assert (nonempty w = true) as Hne by (unfold nonempty; by rewrite Hc).
    rewrite (scan_hit _ _ _ Hfirst Hne).
    destruct (IH (rest w)) as (parts & closing & Hrest & Hparts & Hsteps).
    { rewrite Htext, length_app, Hc. simpl. lia. }
    exists (([], b) :: parts), closing. cbn [plan_text forallb fmap list_fmap app snd].
    rewrite <- Hrest, <- Hc, <- Htext, Hwf, Hparts. split; [done|]. split; [done|].
    unfold item. rewrite Hg. cbn [fields]. by rewrite <- Hsteps.
Qed.

(** Whatever the text, every step reported is a well-formed occurrence in
    it; the occurrences follow one another in the text without overlap. *)
Lemma parse_plan_sound text :
  ∃ parts closing,
    text = plan_text parts closing ∧
    forallb (λ part, well_formed part.2) parts = true ∧
    parse_plan text = (λ part, step_of part.2) <$> parts.
Proof.
  unfold parse_plan, findall.
  assert (∀ n s, (length s < n)%nat → ∃ parts closing,
            s = plan_text parts closing ∧
            forallb (λ part, well_formed part.2) parts = true ∧
            omap to_step (scan plan_regex s 0) = (λ part, step_of part.2) <$> parts)
    as Hall; [|apply (Hall (S (length text))); lia].
  induction n as [|n IH]; intros s Hs; [lia|].
  apply scan_sound_step. intros s' Hs'. apply IH. lia.
Qed.

(** *** The occurrence the engine settles on *)

(** From the evidence part on every greedy choice succeeds at once. *)
Lemma first_evidence_part b t :
  well_formed b = true →
  ∃ w, first evidence_part (after_desc b ++ t) w ∧
       groups w = [chars "#E" ++ digits b; name b; input b] ∧ rest w = t.
Proof.
  destruct b as [g1 d g2 n g3 g4 nm g5 i].
  unfold well_formed, gaps_ok, after_desc. simpl.
  intros Hwf. repeat (apply andb_true_iff in Hwf as [Hwf ?]).
  assert (∃ n0 nm', nm = n0 :: nm' ∧ is_space n0 = false) as (n0 & nm' & -> & Hn0).
  { destruct nm as [|n0 nm']; [done|]. exists n0, nm'. split; [done|].
    apply word_not_space. match goal with H : some_in Word _ = true |- _ =>
      apply some_in_cons in H as [_ H]; by apply andb_true_iff in H as [H _] end. }
  set (r := evidence_part). vm_compute in r. subst r.
  repeat (rewrite <- app_assoc || rewrite <- app_comm_cons).
  eexists. split.
  { apply (first_gap Space _ g2); [done|done|].
    apply (first_evidence _ n); [done|by apply stops_gap; [apply space_not_digit|..]|].
    apply first_gap; [done|done|]. apply first_lit.
    apply first_gap; [done|simpl; by rewrite Hn0|].
    apply (first_group_plus Word _ (n0 :: nm'));
      [done|by apply stops_gap; [apply space_not_word|..]|].
    apply first_gap; [done|done|]. apply first_lit.
    apply first_group_plus; [done|done|]. apply first_lit. apply first_eps. }
  done.
Qed.

Lemma render_after_desc b :
  render b = chars "Plan:" ++ gap1 b ++ desc b ++ after_desc b.
Proof. done. Qed.

(** On a settled block the first way consumes the block and reports its
    pieces: the longer runs of blanks and of description are tried first and
    fail. *)
Lemma first_block_settled b t :
  well_formed b = true → settled_block b t = true →
  ∃ w, first plan_regex (render b ++ t) w ∧ item w = fields b ∧ rest w = t ∧
       nonempty w = true.
Proof.
  intros Hwf [Hblank%negb_true_iff Hdesc%negb_true_iff]%andb_true_iff.
  destruct (first_evidence_part b t Hwf) as (we & Hwe & Hg & Hrest).
  pose proof Hwf as Hwf'. unfold well_formed, gaps_ok in Hwf'.
  repeat (apply andb_true_iff in Hwf' as [Hwf' ?]).
  match goal with H : some_in Dot _ = true |- _ =>
    apply some_in_cons in H as [Hne Hd] end.
  rewrite render_after_desc.
  change plan_regex with
    (Cat (One (Chr "P")) (Cat (One (Chr "l")) (Cat (One (Chr "a"))
      (Cat (One (Chr "n")) (Cat (One (Chr ":"))
        (Cat (Star Space) (Cat (Group (Cat (Plus Dot) Eps)) evidence_part))))))).
  repeat (rewrite <- app_assoc || rewrite <- app_comm_cons).
  change (chars "Plan:") with ["P"; "l"; "a"; "n"; ":"]%char.
  repeat (rewrite <- app_assoc || rewrite <- app_comm_cons). cbn [app].
  eexists. split.
  { do 5 apply first_lit.
    apply (first_star_settled Space _ (gap1 b)); [done|exact Hblank|].
    apply (first_group_plus_settled Dot _ (desc b)); [done|done|exact Hdesc|].
    exact Hwe. }
  unfold item. cbn [seq groups rest consumed app]. rewrite Hg, Hrest.
  split; [done|]. split; done.
Qed.

Lemma scan_quiet prose t :
  quiet prose t = true → scan plan_regex (prose ++ t) 0 = scan plan_regex t 0.
Proof.
  induction prose as [|c q IH]; [done|]. cbn [quiet].
  intros [Hc%negb_true_iff Hq]%andb_true_iff.
  change ((c :: q) ++ t) with (c :: q ++ t).
  rewrite scan_miss; [by apply IH|]. by apply has_way_false.
Qed.

(** On a text of settled blocks between quiet prose the scan reports block
    after block. *)
Lemma parse_plan_settled parts closing :
  settled parts closing = true →
  parse_plan (plan_text parts closing) = (λ part, step_of part.2) <$> parts.
Proof.
  unfold parse_plan, findall.
  induction parts as [|[prose b] parts IH]; cbn [plan_text settled fmap list_fmap].
  - intros Hq. rewrite <- (app_nil_r closing), scan_quiet by done. done.
  - intros [[[Hq Hwf]%andb_true_iff Hb]%andb_true_iff Hparts]%andb_true_iff.
    rewrite scan_quiet by done.
    destruct (first_block_settled b (plan_text parts closing) Hwf Hb)
      as (w & Hw & Hitem & Hrest & Hne).
    rewrite (scan_hit _ _ w Hw Hne), Hitem, Hrest, to_step_fields.
    cbn [snd]. by rewrite IH.
Qed.

(** *** Every text splits into settled blocks and quiet prose *)






Lemma quiet_without_marker prose t :
  has_marker prose = false →
  t = [] ∨ is_prefix (chars "Plan:") t = true →
  quiet prose t = true.
Proof.
  intros Hp Ht. induction prose as [|c q IH]; [done|].
  unfold has_marker in *. simpl contains in Hp.
  apply orb_false_iff in Hp as [Hc Hq]. cbn [quiet].
  rewrite (IH Hq), andb_true_r. apply negb_true_iff.
  unfold has_way. change ((c :: q) ++ t) with (c :: q ++ t).
  by rewrite exec_needs_marker by (by apply marker_straddle).
Qed.

Lemma settled_line_layout b t : line_layout b = true → settled_block b t = true.
Proof.
  destruct b as [g1 d g2 n g3 g4 nm g5 i].
  unfold line_layout, settled_block, after_desc. simpl.
  destruct d as [|d0 d]; [done|]. destruct g2 as [|nl g2]; [done|].
  intros [Hd0%negb_true_iff ->%Ascii.eqb_eq]%andb_true_iff.
  simpl. by rewrite Hd0.
Qed.

(** The layout of the system prompt, between prose without [Plan:], is
    settled. *)
Lemma settled_prompt_layout parts closing :
  forallb (λ part, part_ok part && line_layout part.2) parts = true →
  has_marker closing = false →
  settled parts closing = true.
Proof.
  intros Hparts Hclosing.
  induction parts as [|[prose b] parts IH]; cbn [settled].
  - apply quiet_without_marker; auto.
  - cbn [forallb] in Hparts. apply andb_true_iff in Hparts as [Hpart Hparts].
    apply andb_true_iff in Hpart as [Hok Hlay].
    apply andb_true_iff in Hok as [Hprose%negb_true_iff Hwf]. cbn [fst snd] in *.
    rewrite quiet_without_marker by (auto using marker_prefix).
    rewrite Hwf, settled_line_layout, IH by done. done.
Qed.




(** The prompt's own layout goes through the same two steps. *)
Example parse_plan_prompt_layout :
  parse_plan (plan_text prompt_layout (chars "Done.")) =
    (λ part, step_of part.2) <$> prompt_layout.
Proof. apply parse_plan_settled, settled_prompt_layout; reflexivity. Qed.

End PromptFacts.

(** ** The workflow and its response function *)
Module RegisterFacts.
Import Register.

Section Workflow.

Context {LLM Tools CompiledGraph : Type}.
Variable validate_system_prompt : string → outcome bool.
Variable get_llm : string → outcome LLM.
Variable get_tools : list string → outcome Tools.
Variable build_graph :
  LLM → ChatPromptTemplate → Tools → bool → bool → bool → Z → outcome CompiledGraph.
Variable ainvoke : CompiledGraph → ReWOOGraphState → Z → outcome ReWOOGraphState.
Variable trim_messages : list Message → Z → outcome (list Message).

Local Abbreviation workflow :=
  (ReWOO_agent_workflow validate_system_prompt get_llm get_tools build_graph).
Local Abbreviation respond := (_response_fn ainvoke trim_messages).

(** What the response function does when the graph raises. *)
Lemma response_fn_raise config graph input_message m messages ex :
  trim_messages input_message (max_history config) = Return (m :: messages) →
  ainvoke graph (GraphState (content m) EmptyString) (recursion_limit config) = Raise ex →
  respond config graph input_message =
    ([TrimMessages (max_history config);
      Ainvoke (GraphState (content m) EmptyString) ((max_iterations config + 1) * 2);
      LogException ("ReWOO Agent failed with exception: " +:+ str_of ex)],
     Return (if verbose config then str_of ex else generic_message)).
Proof.
  intros Htrim Hinvoke. unfold _response_fn, io_try, call, mbind, io_bind. simpl.
  rewrite Htrim. simpl. rewrite Hinvoke. simpl.
  by destruct (verbose config).
Qed.

(** C3 (as amended): the graph is invoked with the recursion limit
    (max_iterations + 1) * 2; when the ceiling is exceeded the run aborts and
    the failure takes the same catch-all path as any other exception: the
    caller gets the exception text in verbose mode and the generic message
    otherwise, so two failures with the same text, or any two failures with
    verbose off, give the same response. *)
Theorem recursion_limit_same_path config graph graph' input_message m messages ex ex' :
  trim_messages input_message (max_history config) = Return (m :: messages) →
  ainvoke graph (GraphState (content m) EmptyString) (recursion_limit config) = Raise ex →
  exn_cls ex = GraphRecursionError →
  ainvoke graph' (GraphState (content m) EmptyString) (recursion_limit config) = Raise ex' →
  Ainvoke (GraphState (content m) EmptyString) ((max_iterations config + 1) * 2)
    ∈ (respond config graph input_message).1 ∧
  (respond config graph input_message).2 =
    Return (if verbose config then str_of ex else generic_message) ∧
  (verbose config = false ∨ str_of ex = str_of ex' →
   (respond config graph input_message).2 = (respond config graph' input_message).2).
Proof.
  intros Htrim Hex _ Hex'.
  rewrite (response_fn_raise _ _ _ _ _ _ Htrim Hex).
  rewrite (response_fn_raise _ _ _ _ _ _ Htrim Hex'). simpl.
  split; [set_solver|]. split; [done|].
  intros [->| ->]; [done|]. done.
Qed.

(** C6: an exception that escapes the graph invocation is caught; the
    caller gets str(ex) in verbose mode and the generic message otherwise. *)
Theorem response_fn_catches config graph input_message m messages ex :
  trim_messages input_message (max_history config) = Return (m :: messages) →
  ainvoke graph (GraphState (content m) EmptyString) (recursion_limit config) = Raise ex →
  (respond config graph input_message).2 =
    Return (from_string (if verbose config then str_of ex
                         else "I seem to be having a problem.")).
Proof.
  intros Htrim Hex. by rewrite (response_fn_raise _ _ _ _ _ _ Htrim Hex).
Qed.

(** Whatever happens inside, the response function returns. *)
Lemma response_fn_returns config graph input_message :
  ∃ response, (respond config graph input_message).2 = Return response.
Proof.
  unfold _response_fn, io_try, call, mbind, io_bind. simpl.
  destruct (trim_messages _ _) as [[|m messages]|e]; simpl.
  - destruct (verbose config); eauto.
  - destruct (ainvoke _ _ _); simpl; [eauto|]. destruct (verbose config); eauto.
  - destruct (verbose config); eauto.
Qed.

(** The prompt built from a custom system prompt is that prompt alone,
    whatever the additional instructions. *)
Lemma planning_prompt_custom config :
  truthy (system_prompt config) = true →
  validate_system_prompt (text (system_prompt config)) = Return true →
  planning_prompt validate_system_prompt config =
    ([], Return [Msg "system" (text (system_prompt config)); Msg "user" Prompt.USER_PROMPT;
                 MessagesPlaceholder "agent_scratchpad" true]).
Proof. unfold planning_prompt. by intros -> ->. Qed.

(** C5: a custom system prompt that fails validation (the check answers
    False, or raises itself) makes the workflow raise before the LLM is
    obtained: ValueError, with nothing but the log entry before it, or the
    check's own exception. A valid one passes this point, and the LLM is
    obtained next. *)
Theorem invalid_prompt_raises_first config :
  truthy (system_prompt config) = true →
  (validate_system_prompt (text (system_prompt config)) = Return false →
   workflow config =
     ([LogException "Invalid system_prompt"], Raise (Exn ValueError "Invalid system_prompt"))) ∧
  (∀ e, validate_system_prompt (text (system_prompt config)) = Raise e →
   workflow config = ([], Raise e)) ∧
  (validate_system_prompt (text (system_prompt config)) = Return true →
   (∃ prompt, planning_prompt validate_system_prompt config = ([], Return prompt)) ∧
   head (workflow config).1 = Some (GetLLM (llm_name config))).
Proof.
  intros Hcustom. split; [|split].
  - intros Hvalid. unfold ReWOO_agent_workflow, planning_prompt.
    by rewrite Hcustom, Hvalid.
  - intros e Hvalid. unfold ReWOO_agent_workflow, planning_prompt.
    by rewrite Hcustom, Hvalid.
  - intros Hvalid. split; [rewrite planning_prompt_custom by done; eauto|].
    unfold ReWOO_agent_workflow. rewrite planning_prompt_custom by done.
    unfold mbind, io_bind, call. simpl. by destruct (get_llm _).
Qed.

End Workflow.

(** C3, as stated, fails: with verbose off, a run that exceeds the
    recursion limit and a run whose planner output does not parse give the
    caller the same response. *)
Lemma recursion_limit_not_distinct :
  sample_graph 40 "12 is greater." (GraphState "task" EmptyString)
    (recursion_limit custom_config) =
    Raise (Exn GraphRecursionError "Recursion limit reached without hitting a stop condition.") ∧
  (_response_fn (λ graph, graph) keep_last custom_config (sample_graph 40 "12 is greater.")
                sample_request).2 =
  (_response_fn (λ graph, graph) keep_last custom_config failing_graph sample_request).2.
Proof. by vm_compute. Qed.

(** C4 fails on the code: the additional instructions are appended to a
    local string only; the system message of the prompt is the custom system
    prompt without them. *)
Lemma additional_instructions_dropped :
  has_placeholders (text (system_prompt custom_config)) = Return true ∧
  planning_prompt has_placeholders custom_config =
    ([], Return [Msg "system" "Plan {task} with {tools}; pick from [{tool_names}].";
                 Msg "user" Prompt.USER_PROMPT;
                 MessagesPlaceholder "agent_scratchpad" true]).
Proof. by vm_compute. Qed.

Lemma recursion_limit_same_path_witness :
  let respond := _response_fn (λ graph, graph) keep_last custom_config in
  Ainvoke (GraphState "Which is greater, 25 - 13 or 132 / 12?" EmptyString) 32
    ∈ (respond (sample_graph 40 "12") sample_request).1 ∧
  (respond (sample_graph 40 "12") sample_request).2 = Return generic_message ∧
  (verbose custom_config = false ∨
   "Recursion limit reached without hitting a stop condition." =
     "The planner output could not be parsed." →
   (respond (sample_graph 40 "12") sample_request).2 =
   (respond failing_graph sample_request).2).
Proof.
  apply (recursion_limit_same_path (λ graph, graph) keep_last custom_config
           (sample_graph 40 "12") failing_graph sample_request
           {| role := "user"; content := "Which is greater, 25 - 13 or 132 / 12?" |} []
           (Exn GraphRecursionError "Recursion limit reached without hitting a stop condition.")
           (Exn ValueError "The planner output could not be parsed."));
    reflexivity.
Defined.

Lemma response_fn_catches_witness :
  (_response_fn (λ graph, graph) keep_last custom_config failing_graph sample_request).2 =
  Return "I seem to be having a problem.".
Proof.
  apply (response_fn_catches (λ graph, graph) keep_last custom_config failing_graph
           sample_request
           {| role := "user"; content := "Which is greater, 25 - 13 or 132 / 12?" |} []
           (Exn ValueError "The planner output could not be parsed.")); reflexivity.
Defined.

Lemma invalid_prompt_raises_first_witness :
  truthy (system_prompt bad_config) = true ∧
  has_placeholders (text (system_prompt bad_config)) = Return false ∧
  ReWOO_agent_workflow has_placeholders (λ _, Return tt) (λ _, Return tt)
    (λ _ _ _ _ _ _ _, Return failing_graph) bad_config =
  ([LogException "Invalid system_prompt"], Raise (Exn ValueError "Invalid system_prompt")).
Proof.
  split; [reflexivity|]. split; [reflexivity|].
  apply (invalid_prompt_raises_first has_placeholders (λ _, Return tt) (λ _, Return tt)
           (λ _ _ _ _ _ _ _, Return failing_graph) bad_config); reflexivity.
Defined.

End RegisterFacts.

(** ** The job store *)
Module JobStoreFacts.
Import JobStore.

(** C8: the stored job has its expiry clamped to [600, 86400], is
    SUBMITTED, has neither error nor output path, and sits under the
    returned job id. *)
Theorem create_job_stores_clamped self uuid4 now1 now2 config_file job_id expiry_seconds :
  let created := create_job self uuid4 now1 now2 config_file job_id expiry_seconds in
  ∃ job, _jobs created.2 !! created.1 = Some job ∧
         JobStore.job_id job = created.1 ∧
         created.1 = default uuid4 job_id ∧
         600 ≤ JobStore.expiry_seconds job ≤ 86400 ∧
         (expiry_seconds < 600 → JobStore.expiry_seconds job = 600) ∧
         (86400 < expiry_seconds → JobStore.expiry_seconds job = 86400) ∧
         (600 ≤ expiry_seconds ≤ 86400 → JobStore.expiry_seconds job = expiry_seconds) ∧
         status job = SUBMITTED ∧ error job = None ∧ output_path job = None.
Proof.
  unfold create_job, MIN_EXPIRY, MAX_EXPIRY. cbn [fst snd _jobs].
  eexists. split; [apply lookup_insert_eq|]. cbn.
  repeat split; lia.
Qed.

Lemma keys_of_raise {A} (key : A → outcome datetime) x items e :
  key x = Raise e → keys_of key (x :: items) = Raise e.
Proof. simpl. by intros ->. Qed.

Lemma getitem_model job key :
  getitem (PModel job) key = Raise (Exn TypeError "'JobInfo' object is not subscriptable").
Proof. done. Qed.

(** C7: with a finished job in the store the cleanup fails: the key of the
    sort subscripts a JobInfo, which raises TypeError, and the store is left
    as it was. The other accesses of the method are invalid as well: [get]
    is no attribute of a JobInfo and [jobs] none of the store. *)
Theorem cleanup_fails_on_finished_job self now id job :
  _jobs self !! id = Some job →
  is_active job = false →
  cleanup_expired_jobs self now =
    (self, Raise (Exn TypeError "'JobInfo' object is not subscriptable")) ∧
  (∀ j key, ∃ e, getitem (PModel j) key = Raise e ∧ exn_cls e = TypeError) ∧
  (∀ j key d, ∃ e, get_method (PModel j) key d = Raise e ∧ exn_cls e = AttributeError) ∧
  (∃ e, getattr_jobs self = Raise e ∧ exn_cls e = AttributeError).
Proof.
  intros Hjob Hfinished. split; [|by eauto 10].
  unfold cleanup_expired_jobs.
  set (finished_jobs := filter _ (_jobs self)).
  assert (finished_jobs !! id = Some job) as Hin.
  { apply map_lookup_filter_Some. split; [done|]. simpl. by apply Is_true_false. }
  destruct (map_to_list finished_jobs) as [|[id' job'] items] eqn:Hitems.
  { apply map_to_list_empty_iff in Hitems. by rewrite Hitems in Hin. }
  done.
Qed.

(** Without a finished job there is nothing to sort and the cleanup
    returns. *)
Lemma cleanup_returns_without_finished_job self now :
  (∀ id job, _jobs self !! id = Some job → is_active job = true) →
  cleanup_expired_jobs self now = (self, Return tt).
Proof.
  intros Hactive. unfold cleanup_expired_jobs.
  set (finished_jobs := filter _ (_jobs self)).
  assert (finished_jobs = ∅) as ->.
  { apply map_empty_filter. intros id job Hjob. simpl.
    rewrite (Hactive _ _ Hjob). by intros []. }
  by rewrite map_to_list_empty.
Qed.

Lemma cleanup_fails_on_finished_job_witness :
  cleanup_expired_jobs finished_store 1000000000 =
    (finished_store, Raise (Exn TypeError "'JobInfo' object is not subscriptable")).
Proof.
  eapply (cleanup_fails_on_finished_job finished_store 1000000000 "job-1").
  - apply lookup_singleton_eq.
  - reflexivity.
Defined.

End JobStoreFacts.

(** ** The dataset handler *)
Module DatasetFacts.
Import DatasetHandler.

Lemma lstrip_nil l : lstrip l = [] ↔ forallb PyRe.is_space l = true.
Proof.
  induction l as [|c l IH]; simpl; [done|].
  destruct (PyRe.is_space c); simpl; [done|]. split; intros; discriminate.
Qed.

Lemma strip_blank s : String.eqb (strip s) "" = forallb PyRe.is_space (chars s).
Proof.
  unfold strip. set (l := chars s).
  destruct (forallb PyRe.is_space l) eqn:Hall.
  - apply lstrip_nil in Hall. by rewrite Hall.
  - assert (lstrip (rev (lstrip l)) ≠ []) as Hne.
    { intros Hnil%lstrip_nil. rewrite forallb_forall in Hnil.
      assert (forallb PyRe.is_space (lstrip l) = true) as Hl.
      { apply forallb_forall. intros c Hc. apply Hnil, in_rev. by rewrite rev_involutive. }
      clear Hnil. induction l as [|c l IH]; simpl in *; [done|].
      destruct (PyRe.is_space c) eqn:Hc; simpl in *; [by apply IH|].
      by rewrite Hc in Hl. }
    destruct (lstrip (rev (lstrip l))) as [|c m] using rev_ind; [done|].
    rewrite rev_app_distr. done.
Qed.

Lemma kept_not_blank v : notnull v && ne "" (str_strip v) = negb (blank v).
Proof. destruct v; simpl; try done. by rewrite strip_blank. Qed.

Lemma select_mask (l : list (gmap string value)) key :
  fst <$> filter (λ rm : gmap string value * bool, rm.2 = true)
            (zip l (zip_with andb (notnull <$> ((λ row, cell row key) <$> l))
                      (ne "" <$> (str_strip <$> ((λ row, cell row key) <$> l))))) =
  filter (λ row, blank (cell row key) = false) l.
Proof.
  induction l as [|row l IH]; [done|]. cbn [fmap list_fmap zip zip_with].
  rewrite kept_not_blank, !filter_cons, <- IH. cbn [snd].
  destruct (blank (cell row key)); cbn [negb]; by repeat case_decide.
Qed.

Lemma new_item_Return validate arguments item :
  new_item validate arguments = Return item ↔ item = arguments ∧ validate arguments = None.
Proof.
  unfold new_item. destruct (validate arguments); split;
    [done|by intros [_ ?]|by intros [= <-]|by intros [-> _]].
Qed.

(** The list comprehension over a constructor call that may raise. *)
Lemma mapM_new_item {A} validate (g : A → EvalInputItem) l items :
  mapM (λ x, new_item validate (g x)) l = Return items →
  items = g <$> l ∧ Forall (λ item, validate item = None) items.
Proof.
  revert items. induction l as [|x l IH]; intros items.
  - intros [= <-]. by split.
  - change (mapM (λ x, new_item validate (g x)) (x :: l)) with
      (y ← new_item validate (g x);
       k ← mapM (λ x, new_item validate (g x)) l; Return (y :: k)).
    destruct (new_item validate (g x)) as [y|e] eqn:Hx; [|done].
    apply new_item_Return in Hx as [-> Hx]. cbn [mbind outcome_bind].
    destruct (mapM _ l) as [ys|e]; [|done]. cbn [mbind outcome_bind].
    intros [= <-]. destruct (IH ys eq_refl) as [-> Hys].
    split; [done|]. by constructor.
Qed.

Lemma mapM_new_item_Raise {A} validate (g : A → EvalInputItem) l e :
  mapM (λ x, new_item validate (g x)) l = Raise e → exn_cls e = ValidationError.
Proof.
  induction l as [|x l IH]; [done|].
  change (mapM (λ x, new_item validate (g x)) (x :: l)) with
    (y ← new_item validate (g x);
     k ← mapM (λ x, new_item validate (g x)) l; Return (y :: k)).
  destruct (new_item validate (g x)) as [y|e0] eqn:Hx; cbn [mbind outcome_bind].
  - destruct (mapM _ l) as [ys|e']; [done|]. cbn [mbind outcome_bind].
    intros ?. simplify_eq. by apply IH.
  - intros ?. simplify_eq. unfold new_item in Hx.
    destruct (validate (g x)); by simplify_eq.
Qed.

Lemma mapM_new_item_valid {A} validate (g : A → EvalInputItem) l :
  Forall (λ item, validate item = None) (g <$> l) →
  mapM (λ x, new_item validate (g x)) l = Return (g <$> l).
Proof.
  induction l as [|x l IH]; [done|]. cbn [fmap list_fmap].
  intros [Hx Hl]%Forall_cons.
  change (mapM (λ x, new_item validate (g x)) (x :: l)) with
    (y ← new_item validate (g x);
     k ← mapM (λ x, new_item validate (g x)) l; Return (y :: k)).
  rewrite (proj2 (new_item_Return validate (g x) (g x))) by done.
  cbn [mbind outcome_bind]. by rewrite (IH Hl).
Qed.

Section Handler.

Variable to_json : gmap string value → string.
Variable json_dumps : value → Z → bool → string.
Variable str_validate : list value → option string.
Variable validate : EvalInputItem → option string.
Variable self : DatasetHandler.

Local Abbreviation question := (key_of question_key self).
Local Abbreviation answer := (key_of answer_key self).
Local Abbreviation run := (get_eval_input_from_df to_json str_validate validate self).

(** The structured run on a frame that has both columns, step by step: the
    answers are filled in, the accessor checks the question column, the rows
    with a blank question go, and an item is built from every row left. *)
Lemma structured_outcome df :
  empty df = false → is_structured_input self = true →
  has_column df answer = true → has_column df question = true →
  let filled := set_column df answer
                  (fillna (Text "") <$> ((λ row, cell row answer) <$> rows df)) in
  let kept := filter (λ row, blank (cell row question) = false) (rows filled) in
  run df =
    match str_validate ((λ row, cell row question) <$> rows filled) with
    | Some text => Raise (Exn AttributeError text)
    | None =>
        eval_input_items ←
          mapM (λ row, new_item validate
                         (item_arguments to_json self (Frame (columns df) kept) row true))
               kept;
        Return (Input eval_input_items)
    end.
Proof.
  intros Hempty Hstructured Hanswer Hquestion filled kept.
  unfold get_eval_input_from_df, column. rewrite Hempty, Hstructured, Hanswer.
  cbn [mbind outcome_bind].
  change (has_column (set_column df answer _) question) with (has_column df question).
  rewrite Hquestion. cbn [mbind outcome_bind]. unfold str_accessor.
  fold filled. destruct (str_validate _); cbn [mbind outcome_bind]; [done|].
  unfold select. rewrite select_mask. done.
Qed.

(** A structured run that misses a column raises KeyError. *)
Lemma structured_missing_column df :
  empty df = false → is_structured_input self = true →
  has_column df answer && has_column df question = false →
  ∃ key, run df = Raise (Exn KeyError key).
Proof.
  intros Hempty Hstructured Hcolumns.
  unfold get_eval_input_from_df, column. rewrite Hempty, Hstructured.
  destruct (has_column df answer) eqn:Hanswer; [|by eexists].
  cbn [mbind outcome_bind].
  change (has_column (set_column df answer _) question) with (has_column df question).
  simpl in Hcolumns. rewrite Hcolumns. by eexists.
Qed.

Lemma kept_question_not_blank df row (shown l : list (gmap string value)) :
  has_column df question = true →
  row ∈ filter (λ row, blank (cell row question) = false) l →
  blank (input_obj (item_arguments to_json self
                      (Frame (columns df) shown) row true)) = false.
Proof.
  intros Hquestion [Hrow _]%list_elem_of_filter.
  unfold item_arguments, row_get. cbn.
  change (has_column _ question) with (has_column df question). by rewrite Hquestion.
Qed.

(** C9: an empty frame gives no items. In the structured case, whenever
    the call returns, the rows whose question is missing or all whitespace
    have been dropped, the items are those of the rows left, in order, and
    every item has a question that is neither; it returns when the frame has
    the answer and the question column, pandas accepts string methods on the
    question column and the constructor accepts every item (else it raises:
    KeyError, AttributeError, ValidationError). In the unstructured case no
    row is dropped: whenever the call returns there is one item per row, and
    it returns when the constructor accepts every item. *)
Theorem get_eval_input_from_df_filters df :
  (empty df = true → run df = Return (Input [])) ∧
  (empty df = false → is_structured_input self = true →
   let filled := set_column df answer
                   (fillna (Text "") <$> ((λ row, cell row answer) <$> rows df)) in
   let kept := filter (λ row, blank (cell row question) = false) (rows filled) in
   let items := (λ row, item_arguments to_json self (Frame (columns df) kept) row true)
                  <$> kept in
   (∀ result, run df = Return result →
      result = Input items ∧ ∀ item, item ∈ items → blank (input_obj item) = false) ∧
   (has_column df answer = true → has_column df question = true →
    str_validate ((λ row, cell row question) <$> rows filled) = None →
    Forall (λ item, validate item = None) items →
    run df = Return (Input items))) ∧
  (empty df = false → is_structured_input self = false →
   let items := (λ row, item_arguments to_json self df row false) <$> rows df in
   (∀ result, run df = Return result → result = Input items) ∧
   (Forall (λ item, validate item = None) items → run df = Return (Input items))).
Proof.
  split; [unfold get_eval_input_from_df; by intros ->|]. split.
  - intros Hempty Hstructured filled kept items. split.
    + intros result Hrun.
      destruct (has_column df answer && has_column df question) eqn:Hcolumns; cycle 1.
      { destruct (structured_missing_column df Hempty Hstructured Hcolumns) as [key Hkey].
        by rewrite Hkey in Hrun. }
      apply andb_true_iff in Hcolumns as [Hanswer Hquestion].
      rewrite structured_outcome in Hrun by done. cbv zeta in Hrun.
      destruct (str_validate _); [done|].
      destruct (mapM _ _) as [ys|e] eqn:Hitems; [|done].
      apply mapM_new_item in Hitems as [-> _].
      cbn [mbind outcome_bind] in Hrun. injection Hrun as <-. split; [done|].
      intros item (row & -> & Hrow)%list_elem_of_fmap.
      by apply (kept_question_not_blank df row _ (rows filled)).
    + intros Hanswer Hquestion Hstr Hvalid.
      rewrite structured_outcome by done. cbv zeta. fold filled. rewrite Hstr.
      fold kept. by rewrite (mapM_new_item_valid _ _ _ Hvalid).
  - intros Hempty Hstructured items.
    unfold get_eval_input_from_df. rewrite Hempty, Hstructured.
    cbn [mbind outcome_bind negb]. unfold create_eval_item. split.
    + intros result Hrun.
      destruct (mapM _ _) as [ys|e] eqn:Hitems; [|done].
      apply mapM_new_item in Hitems as [-> _]. by injection Hrun as <-.
    + intros Hvalid. by rewrite (mapM_new_item_valid _ _ _ Hvalid).
Qed.

(** C10: publish_ground_truth returns the serialized id, question and
    answer of every item, for structured and unstructured input alike; it
    never returns None. *)
Theorem publish_ground_truth_always_serializes eval_input :
  publish_ground_truth json_dumps self eval_input =
    Some (json_dumps
            (Arr ((λ item, dict [(id_key (dataset_config self), id item);
                                 (question, input_obj item);
                                 (answer, expected_output_obj item)])
                    <$> eval_input_items eval_input)) 2 false) ∧
  publish_ground_truth json_dumps self eval_input ≠ None.
Proof.
  unfold publish_ground_truth. by destruct (is_structured_input self).
Qed.

End Handler.

Lemma get_eval_input_from_df_filters_witness :
  ∃ items,
    get_eval_input_from_df (λ _, "{}") sample_str_validate sample_validate
      (sample_handler false) sample_frame = Return (Input items) ∧
    input_obj <$> items = [Text "What is 2 + 2?"; Text " Why? "].
Proof.
  pose proof (get_eval_input_from_df_filters (λ _, "{}") sample_str_validate
                sample_validate (sample_handler false) sample_frame) as (_ & H & _).
  destruct (H eq_refl eq_refl) as [_ Hreturns].
  eexists. split.
  - apply Hreturns; [reflexivity..|]. vm_compute. repeat constructor.
  - by vm_compute.
Defined.

(** The structured sample: the blank and the missing question are dropped. *)
Example structured_sample :
  (λ items, input_obj <$> eval_input_items items) <$>
    get_eval_input_from_df (λ _, "{}") sample_str_validate sample_validate
      (sample_handler false) sample_frame =
  Return [Text "What is 2 + 2?"; Text " Why? "].
Proof. by vm_compute. Qed.

(** The unstructured sample: nothing is dropped. *)
Example unstructured_sample :
  (λ items, length (eval_input_items items)) <$>
    get_eval_input_from_df (λ _, "{}") sample_str_validate sample_validate
      (sample_handler true) sample_frame =
  Return 4%nat.
Proof. by vm_compute. Qed.

(** A question column of numbers stops the structured run at the accessor,
    and a missing trajectory cell stops it at the constructor. *)
Example numeric_question_sample :
  exn_cls <$> match get_eval_input_from_df (λ _, "{}") sample_str_validate sample_validate
                      (sample_handler false) numeric_frame with
              | Raise e => Some e
              | Return _ => None
              end = Some AttributeError.
Proof. by vm_compute. Qed.

Example missing_trajectory_sample :
  exn_cls <$> match get_eval_input_from_df (λ _, "{}") sample_str_validate sample_validate
                      (sample_handler false) trajectory_frame with
              | Raise e => Some e
              | Return _ => None
              end = Some ValidationError.
Proof. by vm_compute. Qed.

End DatasetFacts.

(** ** More on the job store *)
Module JobStoreExtra.
Import JobStore.

Lemma elem_of_values self job :
  job ∈ values self ↔ ∃ id, _jobs self !! id = Some job.
Proof.
  unfold values. rewrite list_elem_of_fmap. split.
  - intros ([id j] & -> & Hin). exists id. by apply elem_of_map_to_list.
  - intros (id & Hid). exists (id, job). split; [done|]. by apply elem_of_map_to_list.
Qed.

(** X1: on a job of the store, update_status sets the status, the error,
    the output path and the update time, keeps the job's id, config file,
    creation time and expiry, and leaves every other job as it was. *)
Theorem update_status_sets self now id status error output_path job :
  _jobs self !! id = Some job →
  ∃ self', update_status self now id status error output_path = Return self' ∧
    get_job self' id =
      Some {| job_id := job_id job; status := status; config_file := config_file job;
              error := error; output_path := output_path; created_at := created_at job;
              updated_at := now; expiry_seconds := expiry_seconds job |} ∧
    ∀ other, other ≠ id → get_job self' other = get_job self other.
Proof.
  intros Hjob. unfold update_status. rewrite Hjob. eexists. split; [done|].
  unfold get_job. cbn [_jobs]. split; [apply lookup_insert_eq|].
  intros other Hother. by apply lookup_insert_ne.
Qed.

Lemma update_status_sets_witness :
  ∃ self', update_status two_jobs 30 "a" SUCCESS None (Some "out") = Return self' ∧
    get_job self' "a" =
      Some {| job_id := "a"; status := SUCCESS; config_file := "a.yml"; error := None;
              output_path := Some "out"; created_at := 10; updated_at := 30;
              expiry_seconds := 600 |} ∧
    ∀ other, other ≠ "a" → get_job self' other = get_job two_jobs other.
Proof.
  apply (update_status_sets two_jobs 30 "a" SUCCESS None (Some "out")
           {| job_id := "a"; status := RUNNING; config_file := "a.yml"; error := None;
              output_path := None; created_at := 10; updated_at := 10;
              expiry_seconds := 600 |}).
  reflexivity.
Defined.

(** X2: update_status raises ValueError exactly for an id the store does
    not hold, and when it returns the store holds the same ids as before: it
    never adds or removes a job. *)
Theorem update_status_keeps_ids self now id status error output_path :
  (_jobs self !! id = None ↔
   update_status self now id status error output_path =
     Raise (Exn ValueError ("Job " +:+ id +:+ " not found"))) ∧
  (∀ self', update_status self now id status error output_path = Return self' →
            dom (_jobs self') = dom (_jobs self)).
Proof.
  unfold update_status. destruct (_jobs self !! id) as [job|] eqn:Hjob.
  - split; [split; intros; discriminate|].
    intros self' [= <-]. cbn [_jobs]. rewrite dom_insert_L.
    apply elem_of_dom_2 in Hjob. apply subseteq_union_1_L.
    by apply singleton_subseteq_l.
  - split; [done|]. intros; discriminate.
Qed.

(** X3: create_job touches one entry only: every other id keeps its job,
    and the ids of the store are the old ones and the returned one. An id
    that was already there is taken over by the new job. *)
Theorem create_job_frame self uuid4 now1 now2 config_file job_id expiry_seconds :
  let created := create_job self uuid4 now1 now2 config_file job_id expiry_seconds in
  (∀ other, other ≠ created.1 → get_job created.2 other = get_job self other) ∧
  dom (_jobs created.2) = {[ created.1 ]} ∪ dom (_jobs self).
Proof.
  unfold create_job, get_job. cbn [fst snd _jobs]. split.
  - intros other Hother. by apply lookup_insert_ne.
  - apply dom_insert_L.
Qed.

(** X4: a job as create_job stores it is active, so it has no expiry
    time, whatever expiry was asked for. *)
Theorem created_job_does_not_expire self uuid4 now1 now2 config_file job_id expiry_seconds :
  let created := create_job self uuid4 now1 now2 config_file job_id expiry_seconds in
  get_expires_at <$> get_job created.2 created.1 = Some None.
Proof.
  unfold create_job, get_job. cbn [fst snd _jobs]. by rewrite lookup_insert_eq.
Qed.

(** X5: once a created job is given a status that is not active, it
    expires its clamped expiry after its creation: no sooner than 600 and no
    later than 86400 seconds after it. *)
Theorem finished_job_expiry_window self uuid4 now1 now2 now3 config_file job_id
    expiry_seconds status error output_path :
  status ∉ ACTIVE_STATUS →
  let created := create_job self uuid4 now1 now2 config_file job_id expiry_seconds in
  ∃ self' expires,
    update_status created.2 now3 created.1 status error output_path = Return self' ∧
    get_expires_at <$> get_job self' created.1 = Some (Some expires) ∧
    expires = now1 + Z.max 600 (Z.min expiry_seconds 86400) * 1000000 ∧
    now1 + 600 * 1000000 ≤ expires ≤ now1 + 86400 * 1000000.
Proof.
  intros Hstatus. unfold create_job, update_status, get_job, MIN_EXPIRY, MAX_EXPIRY.
  cbn [fst snd _jobs]. rewrite lookup_insert_eq. do 2 eexists. split; [done|].
  cbn [_jobs]. rewrite lookup_insert_eq. cbn [fmap option_fmap option_map].
  unfold get_expires_at, is_active. cbn [JobStore.status created_at JobStore.expiry_seconds].
  rewrite bool_decide_eq_false_2 by done. split; [done|]. split; [done|]. lia.
Qed.

Lemma finished_job_expiry_window_witness :
  ∃ self' expires,
    update_status (create_job __init__ "u" 5 6 "c.yml" None 10).2 7
      (create_job __init__ "u" 5 6 "c.yml" None 10).1 SUCCESS None None = Return self' ∧
    get_expires_at <$> get_job self' (create_job __init__ "u" 5 6 "c.yml" None 10).1 =
      Some (Some expires) ∧
    expires = 5 + Z.max 600 (Z.min 10 86400) * 1000000 ∧
    5 + 600 * 1000000 ≤ expires ≤ 5 + 86400 * 1000000.
Proof.
  apply (finished_job_expiry_window __init__ "u" 5 6 7 "c.yml" None 10 SUCCESS None None).
  apply (bool_decide_eq_false_1 (SUCCESS ∈ ACTIVE_STATUS)). by vm_compute.
Defined.

Lemma cleanup_raises_on_finished self now id job :
  _jobs self !! id = Some job → is_active job = false →
  cleanup_expired_jobs self now =
    (self, Raise (Exn TypeError "'JobInfo' object is not subscriptable")).
Proof.
  intros Hjob Hfinished. unfold cleanup_expired_jobs.
  set (finished_jobs := filter _ (_jobs self)).
  assert (finished_jobs !! id = Some job) as Hin.
  { apply map_lookup_filter_Some. split; [done|]. simpl. by apply Is_true_false. }
  destruct (map_to_list finished_jobs) as [|[id' job'] items] eqn:Hitems.
  { apply map_to_list_empty_iff in Hitems. by rewrite Hitems in Hin. }
  done.
Qed.

Lemma cleanup_returns_on_active self now :
  (∀ id job, _jobs self !! id = Some job → is_active job = true) →
  cleanup_expired_jobs self now = (self, Return tt).
Proof.
  intros Hactive. unfold cleanup_expired_jobs.
  set (finished_jobs := filter _ (_jobs self)).
  assert (finished_jobs = ∅) as ->.
  { apply map_empty_filter. intros id job Hjob. simpl.
    rewrite (Hactive _ _ Hjob). by intros []. }
  by rewrite map_to_list_empty.
Qed.

(** X6: cleanup_expired_jobs never removes a job: whatever the store and
    the time, the store after the call is the store before it; the call
    returns normally exactly when no job has finished. *)
Theorem cleanup_never_deletes self now :
  (cleanup_expired_jobs self now).1 = self ∧
  ((cleanup_expired_jobs self now).2 = Return tt ↔
   ∀ id job, _jobs self !! id = Some job → is_active job = true).
Proof.
  destruct (decide (∀ id job, _jobs self !! id = Some job → is_active job = true))
    as [Hall|Hsome].
  - rewrite cleanup_returns_on_active by done. done.
  - assert (∃ id job, _jobs self !! id = Some job ∧ is_active job = false)
      as (id & job & Hjob & Hfinished).
    { apply dec_stable. intros Hnone. apply Hsome. intros id job Hjob.
      destruct (is_active job) eqn:Hact; [done|]. destruct Hnone; eauto. }
    rewrite (cleanup_raises_on_finished _ _ _ _ Hjob Hfinished).
    split; [done|]. split; [done|]. intros Hall. by destruct Hsome.
Qed.

Lemma later_of_fold job jobs :
  foldl later_of job jobs ∈ job :: jobs ∧
  ∀ other, other ∈ job :: jobs → created_at other ≤ created_at (foldl later_of job jobs).
Proof.
  revert job. induction jobs as [|next jobs IH]; intros job; simpl.
  - split; [apply list_elem_of_here|]. by intros other ->%list_elem_of_singleton.
  - destruct (IH (later_of job next)) as [Hin Hmax]. split.
    + apply elem_of_cons in Hin as [->|Hin].
      * unfold later_of. destruct (_ <? _).
        -- apply list_elem_of_further, list_elem_of_here.
        -- apply list_elem_of_here.
      * by do 2 apply list_elem_of_further.
    + intros other Hother.
      assert (created_at job ≤ created_at (later_of job next) ∧
              created_at next ≤ created_at (later_of job next)) as [Hj Hn].
      { unfold later_of. destruct (created_at job <? created_at next) eqn:Hlt; lia. }
      pose proof (Hmax (later_of job next) (list_elem_of_here _ _)).
      apply elem_of_cons in Hother as [->|[->|Hother]%elem_of_cons]; [lia|lia|].
      apply Hmax. by apply list_elem_of_further.
Qed.

Lemma last_job_spec self :
  (get_last_job self = None ↔ _jobs self = ∅) ∧
  (∀ last, get_last_job self = Some last →
     (∃ id, _jobs self !! id = Some last) ∧
     ∀ id job, _jobs self !! id = Some job → created_at job ≤ created_at last).
Proof.
  unfold get_last_job.
  destruct (values self) as [|job jobs] eqn:Hvalues.
  - split; [|intros; discriminate]. split; [|done]. intros _.
    unfold values in Hvalues. apply fmap_nil_inv in Hvalues.
    by apply map_to_list_empty_iff.
  - split.
    + split; [done|]. intros Hempty. unfold values in Hvalues.
      by rewrite Hempty, map_to_list_empty in Hvalues.
    + intros last [= <-]. destruct (later_of_fold job jobs) as [Hin Hmax].
      rewrite <- Hvalues in Hin, Hmax. split; [by apply elem_of_values|].
      intros id other Hother. apply Hmax, elem_of_values. eauto.
Qed.

(** X7: get_last_job answers None exactly on an empty store; otherwise it
    answers a job of the store that no job of the store was created after. *)
Theorem get_last_job_latest self :
  (get_last_job self = None ↔ _jobs self = ∅) ∧
  (∀ last, get_last_job self = Some last →
     (∃ id, _jobs self !! id = Some last) ∧
     ∀ id job, _jobs self !! id = Some job → created_at job ≤ created_at last).
Proof. apply last_job_spec. Qed.

(** X21: when the clock has moved on since every job of the store was
    created, the job create_job has just stored is the last job. *)
Theorem created_job_is_last self uuid4 now1 now2 config_file job_id expiry_seconds :
  (∀ id job, _jobs self !! id = Some job → created_at job < now1) →
  let created := create_job self uuid4 now1 now2 config_file job_id expiry_seconds in
  get_last_job created.2 = get_job created.2 created.1.
Proof.
  intros Hclock created.
  assert (get_job created.2 created.1 =
            Some {| job_id := created.1; status := SUBMITTED; config_file := config_file;
                    error := None; output_path := None; created_at := now1;
                    updated_at := now2;
                    expiry_seconds := Z.max MIN_EXPIRY (Z.min expiry_seconds MAX_EXPIRY) |})
    as Hnew by apply lookup_insert_eq.
  destruct (last_job_spec created.2) as [Hnone Hsome].
  destruct (get_last_job created.2) as [last|] eqn:Hlast.
  - destruct (Hsome last eq_refl) as [(id & Hid) Hmax].
    rewrite Hnew. destruct (decide (id = created.1)) as [->|Hne].
    + unfold get_job in Hnew. by rewrite <- Hid, Hnew.
    + specialize (Hmax _ _ Hnew). cbn in Hmax.
      assert (_jobs self !! id = Some last) as Hold.
      { rewrite <- Hid. symmetry. by apply lookup_insert_ne. }
      specialize (Hclock _ _ Hold). lia.
  - destruct Hnone as [Hnone _]. specialize (Hnone eq_refl).
    unfold get_job in Hnew. by rewrite Hnone in Hnew.
Qed.

Lemma created_job_is_last_witness :
  get_last_job (create_job two_jobs "u" 30 31 "c.yml" None 3600).2 =
  get_job (create_job two_jobs "u" 30 31 "c.yml" None 3600).2
          (create_job two_jobs "u" 30 31 "c.yml" None 3600).1.
Proof.
  apply (created_job_is_last two_jobs "u" 30 31 "c.yml" None 3600).
  intros id job Hjob. unfold two_jobs in Hjob. cbn [_jobs] in Hjob.
  apply lookup_insert_Some in Hjob as [[_ <-]|[_ Hjob]]; [cbn; lia|].
  apply lookup_singleton_Some in Hjob as [_ <-]. cbn. lia.
Defined.

(** X8: the store keeps every job under the job's own id: this holds of
    the empty store and is preserved by create_job and by update_status. *)
Theorem keyed_invariant :
  keyed __init__ ∧
  (∀ self uuid4 now1 now2 config_file job_id expiry_seconds,
     keyed self →
     keyed (create_job self uuid4 now1 now2 config_file job_id expiry_seconds).2) ∧
  (∀ self now id status error output_path self',
     keyed self →
     update_status self now id status error output_path = Return self' →
     keyed self').
Proof.
  split; [|split].
  - intros id job. unfold __init__. cbn [_jobs]. by rewrite lookup_empty.
  - intros self uuid4 now1 now2 config_file job_id expiry_seconds Hkeyed id job.
    unfold create_job. cbn [snd _jobs]. rewrite lookup_insert.
    case_decide as Hid; [|apply Hkeyed]. by intros [= <-].
  - intros self now id status error output_path self' Hkeyed.
    unfold update_status. destruct (_jobs self !! id) as [old|] eqn:Hold; [|done].
    intros [= <-] id' job. cbn [_jobs]. rewrite lookup_insert.
    case_decide as Hid; [|apply Hkeyed]. intros [= <-]. cbn.
    subst id'. by apply Hkeyed.
Qed.

End JobStoreExtra.

(** ** More on the workflow and its response function *)
Module RegisterExtra.
Import Register.

Section Workflow.

Context {CompiledGraph : Type}.
Variable validate_system_prompt : string → outcome bool.
Variable ainvoke : CompiledGraph → ReWOOGraphState → Z → outcome ReWOOGraphState.
Variable trim_messages : list Message → Z → outcome (list Message).

Local Abbreviation respond := (_response_fn ainvoke trim_messages).

(** X9: the response function never raises, whatever the trimming and the
    graph do; with verbose off the caller gets the graph's result or the
    generic message and never the text of an exception. *)
Theorem response_fn_never_raises config graph input_message :
  ∃ response,
    (respond config graph input_message).2 = Return response ∧
    (verbose config = false →
     response = generic_message ∨
     ∃ state limit final, ainvoke graph state limit = Return final ∧
                          response = result final).
Proof.
  unfold _response_fn, io_try, call, mbind, io_bind. simpl.
  destruct (trim_messages _ _) as [[|m messages]|e]; simpl.
  - destruct (verbose config); eexists; (split; [reflexivity|]); [done|by left].
  - destruct (ainvoke _ _ _) as [final|ex] eqn:Hinvoke; simpl.
    + eexists. split; [reflexivity|]. intros _. right. eauto.
    + destruct (verbose config); eexists; (split; [reflexivity|]); [done|by left].
  - destruct (verbose config); eexists; (split; [reflexivity|]); [done|by left].
Qed.

(** X10: when trimming leaves a first message and the graph returns, the
    graph was given that message's content as the task and the recursion limit
    (max_iterations + 1) * 2, the response is the result of the final state
    as it is, and nothing is logged. *)
Theorem response_fn_success config graph input_message m messages final :
  trim_messages input_message (max_history config) = Return (m :: messages) →
  ainvoke graph (GraphState (content m) EmptyString) ((max_iterations config + 1) * 2)
    = Return final →
  respond config graph input_message =
    ([TrimMessages (max_history config);
      Ainvoke (GraphState (content m) EmptyString) ((max_iterations config + 1) * 2)],
     Return (from_string (result final))).
Proof.
  intros Htrim Hinvoke. unfold _response_fn, io_try, call, mbind, io_bind, recursion_limit.
  simpl. rewrite Htrim. simpl. by rewrite Hinvoke.
Qed.

(** X11: when trimming leaves no message, the graph is not invoked: the
    IndexError of messages[0] is caught and answered like any other failure. *)
Theorem response_fn_no_message config graph input_message :
  trim_messages input_message (max_history config) = Return [] →
  respond config graph input_message =
    ([TrimMessages (max_history config);
      LogException "ReWOO Agent failed with exception: list index out of range"],
     Return (failure_text config (Exn IndexError "list index out of range"))).
Proof.
  intros Htrim. unfold _response_fn, io_try, call, mbind, io_bind, failure_text.
  simpl. rewrite Htrim. simpl. by destruct (verbose config).
Qed.

(** X12: without a custom system prompt (none, or the empty string) the
    prompt is the default one of prompt.py: the check is not consulted and
    the additional instructions are not used. *)
Theorem planning_prompt_default config :
  truthy (system_prompt config) = false →
  planning_prompt validate_system_prompt config = ([], Return rewoo_agent_prompt).
Proof. unfold planning_prompt. by intros ->. Qed.

End Workflow.

Lemma response_fn_success_witness :
  _response_fn (λ graph, graph) keep_last custom_config (sample_graph 3 "12 is greater.")
               sample_request =
    ([TrimMessages 15;
      Ainvoke (GraphState "Which is greater, 25 - 13 or 132 / 12?" EmptyString) 32],
     Return "12 is greater.").
Proof.
  apply (response_fn_success (λ graph, graph) keep_last custom_config
           (sample_graph 3 "12 is greater.") sample_request
           {| role := "user"; content := "Which is greater, 25 - 13 or 132 / 12?" |} []
           (GraphState "Which is greater, 25 - 13 or 132 / 12?" "12 is greater."));
    reflexivity.
Defined.

Lemma response_fn_no_message_witness :
  _response_fn (λ graph, graph) keep_last custom_config failing_graph [] =
    ([TrimMessages 15;
      LogException "ReWOO Agent failed with exception: list index out of range"],
     Return generic_message).
Proof.
  apply (response_fn_no_message (λ graph, graph) keep_last custom_config failing_graph []).
  reflexivity.
Defined.

Lemma planning_prompt_default_witness :
  planning_prompt reject_all
    {| tool_names := []; llm_name := "llm"; verbose := false;
       retry_parsing_errors := true; max_retries := 1;
       include_tool_input_schema_in_tool_description := true;
       max_iterations := 15; description := "ReWOO Agent Workflow";
       system_prompt := Some EmptyString; max_history := 15; use_openai_api := false;
       additional_instructions := Some "Answer in French." |} =
  ([], Return rewoo_agent_prompt).
Proof. apply planning_prompt_default. reflexivity. Defined.

End RegisterExtra.

(** ** More on the plan pattern *)
Module PromptExtra.
Import PyRe Prompt PyReFacts PromptFacts.

(** X13: a planner text that does not contain [Plan:] gives no step. *)
Theorem parse_plan_without_marker text :
  has_marker text = false → parse_plan text = [].
Proof.
  intros Htext. unfold parse_plan, findall.
  rewrite <- (app_nil_r text). rewrite scan_prose by auto. done.
Qed.

Lemma parse_plan_without_marker_witness :
  parse_plan (chars "I cannot plan this. #E1 = search[x]") = [].
Proof. apply parse_plan_without_marker. reflexivity. Defined.

Lemma step_of_part parts step :
  forallb (λ part : str * block, well_formed part.2) parts = true →
  step ∈ (λ part : str * block, step_of part.2) <$> parts →
  ∃ b, step = step_of b ∧ well_formed b = true.
Proof.
  intros Hparts ([prose b] & -> & Hin)%list_elem_of_fmap.
  exists b. split; [done|].
  rewrite forallb_forall in Hparts. apply (Hparts (prose, b)).
  by apply list_elem_of_In.
Qed.

(** X14: whatever the text, every step the parser reports has a
    non-empty description free of line breaks, an evidence identifier made of
    [#E] and one or more digits, a non-empty tool name of word characters and
    a non-empty tool input free of [[]]]. *)
Theorem parse_plan_step_shape text step :
  step ∈ parse_plan text →
  some_in Dot (description step) = true ∧
  (∃ ds, evidence_id step = chars "#E" ++ ds ∧ some_in Digit ds = true) ∧
  some_in Word (tool_name step) = true ∧
  some_in (NoneOf (chars "]")) (tool_input step) = true.
Proof.
  destruct (parse_plan_sound text) as (parts & closing & _ & Hparts & ->).
  intros Hin. apply step_of_part in Hin as (b & -> & Hwf); [|done].
  unfold well_formed in Hwf. repeat (apply andb_true_iff in Hwf as [Hwf ?]).
  cbn. split; [done|]. split; [by exists (digits b)|]. by split.
Qed.

Lemma parse_plan_step_shape_witness :
  some_in Dot (chars "a #E1 = t[x] Plan: b ") = true ∧
  (∃ ds, chars "#E2" = chars "#E" ++ ds ∧ some_in Digit ds = true) ∧
  some_in Word (chars "u") = true ∧
  some_in (NoneOf (chars "]")) (chars "y") = true.
Proof.
  apply (parse_plan_step_shape (chars "Plan: a #E1 = t[x] Plan: b #E2 = u[y]")
           (Step (chars "a #E1 = t[x] Plan: b ") (chars "#E2") (chars "u") (chars "y"))).
  vm_compute. apply list_elem_of_here.
Defined.

Lemma hit_reports_step s w :
  first plan_regex s w →
  ∃ b, omap to_step (scan plan_regex s 0) =
         step_of b :: omap to_step (scan plan_regex (rest w) 0).
Proof.
  intros Hfirst.
  assert (w ∈ exec plan_regex s) as Hw.
  { unfold first, match_at in Hfirst.
    destruct (exec plan_regex s); simplify_eq/=. apply list_elem_of_here. }
  apply exec_sound in Hw as [_ L]. apply lang_plan_regex in L as (b & Hc & Hg & _).
  exists b. rewrite (scan_hit _ _ w Hfirst) by (unfold nonempty; by rewrite Hc).
  unfold item. rewrite Hg. done.
Qed.

Lemma scan_finds pre t :
  exec plan_regex t ≠ [] → omap to_step (scan plan_regex (pre ++ t) 0) ≠ [].
Proof.
  intros Ht. induction pre as [|c pre IH]; simpl app.
  - destruct (exec plan_regex t) as [|w ws] eqn:E; [done|].
    destruct (hit_reports_step t w) as [b ->]; [|done].
    unfold first, match_at. by rewrite E.
  - destruct (exec plan_regex (c :: pre ++ t)) as [|w ws] eqn:E.
    + by rewrite scan_miss.
    + destruct (hit_reports_step (c :: pre ++ t) w) as [b ->]; [|done].
      unfold first, match_at. by rewrite E.
Qed.

(** X15: the parser reports at least one step exactly when the pattern
    matches somewhere in the text. *)
Theorem parse_plan_nonempty_iff_match text :
  parse_plan text ≠ [] ↔ plan_match text = true.
Proof.
  unfold plan_match. rewrite bool_decide_eq_true, search_is_Some. split.
  - intros Hsteps.
    destruct (parse_plan_sound text) as (parts & closing & -> & Hparts & Heq).
    rewrite Heq in Hsteps. destruct parts as [|[prose b] parts]; [done|].
    cbn [forallb snd] in Hparts. apply andb_true_iff in Hparts as [Hwf _].
    exists prose, (render b ++ plan_text parts closing). split; [done|].
    assert (Way (render b) (fields b) (plan_text parts closing)
              ∈ exec plan_regex (render b ++ plan_text parts closing)) as Hw.
    { apply exec_complete, lang_plan_regex. eauto. }
    intros E. rewrite E in Hw. by apply elem_of_nil in Hw.
  - intros (pre & t & -> & Ht). by apply scan_finds.
Qed.

Lemma render_length b : well_formed b = true → (14 ≤ length (render b))%nat.
Proof.
  destruct b as [g1 d g2 n g3 g4 nm g5 i]. unfold well_formed, render. simpl.
  intros Hwf. repeat (apply andb_true_iff in Hwf as [Hwf ?]).
  repeat match goal with
         | H : some_in _ ?s = true |- _ =>
             apply some_in_cons in H as [? _]; destruct s; [done|]
         end.
  repeat (rewrite length_app || rewrite length_cons). lia.
Qed.

(** X16: every step takes at least fourteen characters of the text
    ([Plan:], a description, [#E], a digit, [=], a name, the brackets and an
    input), and steps do not overlap: a text yields at most a fourteenth of
    its length in steps. *)
Theorem parse_plan_step_count text :
  (14 * length (parse_plan text) ≤ length text)%nat.
Proof.
  destruct (parse_plan_sound text) as (parts & closing & -> & Hparts & ->).
  rewrite length_fmap. clear -Hparts.
  induction parts as [|[prose b] parts IH]; cbn [plan_text length]; [lia|].
  cbn [forallb snd] in Hparts. apply andb_true_iff in Hparts as [Hwf Hparts].
  specialize (IH Hparts). pose proof (render_length b Hwf).
  rewrite !length_app. lia.
Qed.

End PromptExtra.

(** ** More on the dataset handler *)
Module DatasetExtra.
Import DatasetHandler DatasetFacts.

Lemma filled_rows (l : list (gmap string value)) key :
  zip_with (λ row v, <[key := v]> row) l
           (fillna (Text "") <$> ((λ row, cell row key) <$> l)) =
  (λ row, <[key := fillna (Text "") (cell row key)]> row) <$> l.
Proof. induction l as [|row l IH]; [done|]. cbn. by rewrite <- IH. Qed.

Lemma fillna_notnull v : notnull (fillna (Text "") v) = true.
Proof. by destruct v. Qed.

Section Handler.

Variable to_json : gmap string value → string.
Variable str_validate : list value → option string.
Variable validate : EvalInputItem → option string.
Variable self : DatasetHandler.

Local Abbreviation question := (key_of question_key self).
Local Abbreviation answer := (key_of answer_key self).
Local Abbreviation run := (get_eval_input_from_df to_json str_validate validate self).

(** X17: on a structured frame that is not empty, get_eval_input_from_df
    raises KeyError exactly when the answer column or the question column is
    missing, and AttributeError exactly when both are there and pandas
    refuses the string methods on the question column; so it returns only on
    a frame that has both columns. *)
Theorem structured_needs_columns df :
  empty df = false → is_structured_input self = true →
  let filled := set_column df answer
                  (fillna (Text "") <$> ((λ row, cell row answer) <$> rows df)) in
  (has_column df answer && has_column df question = false ↔
   ∃ e, run df = Raise e ∧ exn_cls e = KeyError) ∧
  (has_column df answer && has_column df question = true ∧
   is_Some (str_validate ((λ row, cell row question) <$> rows filled)) ↔
   ∃ e, run df = Raise e ∧ exn_cls e = AttributeError) ∧
  (∀ result, run df = Return result →
   has_column df answer && has_column df question = true).
Proof.
  intros Hempty Hstructured filled.
  destruct (has_column df answer && has_column df question) eqn:Hcolumns; cycle 1.
  - destruct (structured_missing_column to_json str_validate validate self df
                Hempty Hstructured Hcolumns) as [key Hkey].
    rewrite Hkey. split; [|split].
    + split; [eauto|done].
    + split; [by intros [? _]|]. by intros (e & [= <-] & ?).
    + done.
  - pose proof Hcolumns as [Hanswer Hquestion]%andb_true_iff.
    rewrite structured_outcome by done. cbv zeta. fold filled.
    destruct (str_validate _) as [text|].
    + split; [|split].
      * split; [done|]. by intros (e & [= <-] & ?).
      * split; [eauto|]. by intros _.
      * done.
    + destruct (mapM _ _) as [ys|e'] eqn:Hitems; cbn [mbind outcome_bind].
      * split; [|split]; [split; [done|by intros (e & ? & _)]| |done].
        split; [by intros [_ [? ?]]|by intros (e & ? & _)].
      * apply mapM_new_item_Raise in Hitems.
        split; [|split]; [| |done].
        -- split; [done|]. intros (e & [= <-] & He). by rewrite Hitems in He.
        -- split; [by intros [_ [? ?]]|].
           intros (e & [= <-] & He). by rewrite Hitems in He.
Qed.

(** X18: in the structured case a missing answer is filled in: no item
    returned has a missing expected output. *)
Theorem structured_answers_filled df items :
  empty df = false → is_structured_input self = true →
  get_eval_input_from_df to_json str_validate validate self df = Return (Input items) →
  ∀ item, item ∈ items → notnull (expected_output_obj item) = true.
Proof.
  intros Hempty Hstructured Hrun.
  destruct (has_column df answer && has_column df question) eqn:Hcolumns; cycle 1.
  { destruct (structured_missing_column to_json str_validate validate self df
                Hempty Hstructured Hcolumns) as [key Hkey].
    by rewrite Hkey in Hrun. }
  apply andb_true_iff in Hcolumns as [Hanswer Hquestion].
  rewrite structured_outcome in Hrun by done. cbv zeta in Hrun.
  destruct (str_validate _); [done|].
  destruct (mapM _ _) as [ys|e] eqn:Hitems; [|done].
  apply mapM_new_item in Hitems as [-> _].
  cbn [mbind outcome_bind] in Hrun. injection Hrun as <-.
  intros item (row & -> & Hrow)%list_elem_of_fmap.
  apply list_elem_of_filter in Hrow as [_ Hrow].
  unfold set_column in Hrow. cbn [rows] in Hrow. rewrite filled_rows in Hrow.
  apply list_elem_of_fmap in Hrow as (row0 & -> & _).
  unfold item_arguments, row_get. cbn [expected_output_obj].
  change (has_column _ answer) with (has_column df answer). rewrite Hanswer.
  unfold cell at 1. rewrite lookup_insert_eq. apply fillna_notnull.
Qed.

End Handler.

Lemma structured_needs_columns_witness :
  ∃ e, get_eval_input_from_df (λ _, "{}") sample_str_validate sample_validate
         (sample_handler false) numeric_frame = Raise e ∧
       exn_cls e = AttributeError.
Proof.
  apply (structured_needs_columns (λ _, "{}") sample_str_validate sample_validate
           (sample_handler false) numeric_frame eq_refl eq_refl).
  split; [reflexivity|]. vm_compute. by eexists.
Defined.

Lemma structured_answers_filled_witness :
  notnull (expected_output_obj
             (item_arguments (λ _, "{}") (sample_handler false) sample_frame
                {[ "id" := Num 4; "question" := Text " Why? "; "answer" := Text "" ]} true))
    = true.
Proof.
  apply (structured_answers_filled (λ _, "{}") sample_str_validate sample_validate
           (sample_handler false) sample_frame
           ((λ row, item_arguments (λ _, "{}") (sample_handler false) sample_frame row true)
              <$> [ {[ "id" := Num 1; "question" := Text "What is 2 + 2?";
                       "answer" := Text "4" ]};
                    {[ "id" := Num 4; "question" := Text " Why? "; "answer" := Text "" ]} ]));
    [reflexivity|reflexivity|by vm_compute|].
  apply list_elem_of_further, list_elem_of_here.
Defined.

(** *** generate_ground_truth *)

Lemma chars_app s1 s2 : chars (s1 +:+ s2) = chars s1 ++ chars s2.
Proof.
  unfold chars. induction s1 as [|c s1 IH]; [done|]. simpl. f_equal. apply IH.
Qed.

Lemma before_last_no_underscore s :
  PyRe.mem "_" s = false → before_last (chars "_rep") s = None.
Proof.
  induction s as [|c s IH]; [done|]. unfold PyRe.mem. cbn [existsb].
  intros [Hc Hs]%orb_false_iff. cbn [before_last]. rewrite (IH Hs).
  change (chars "_rep") with ("_" :: chars "rep")%char. cbn [Prompt.is_prefix].
  by rewrite Hc.
Qed.

Lemma before_last_base base n :
  PyRe.mem "_" n = false →
  before_last (chars "_rep") (base ++ chars "_rep" ++ n) = Some base.
Proof.
  intros Hn. induction base as [|c base IH].
  - change ([] ++ chars "_rep" ++ n) with ("_" :: chars "rep" ++ n)%char.
    cbn [before_last]. rewrite before_last_no_underscore; [done|].
    unfold PyRe.mem in *. by rewrite existsb_app, Hn.
  - cbn [app before_last]. by rewrite IH.
Qed.

Lemma digits_no_underscore n :
  PyRe.all_in PyRe.Digit n = true → PyRe.mem "_" n = false.
Proof.
  unfold PyRe.all_in, PyRe.mem. induction n as [|c n IH]; [done|].
  cbn [forallb existsb PyRe.accepts].
  intros [Hc Hn]%andb_true_iff. rewrite (IH Hn), orb_false_r.
  destruct (Ascii.eqb_spec "_" c) as [<-|]; [|done]. by vm_compute in Hc.
Qed.

(** X19: the id under which a repetition is filed gives back the id it
    was made from: for digits n, the original id of id + "_rep" + n is id,
    also when id itself contains "_rep". *)
Theorem original_id_of_rep base n :
  PyRe.all_in PyRe.Digit (chars n) = true →
  original_id (base +:+ "_rep" +:+ n) = base.
Proof.
  intros Hn%digits_no_underscore. unfold original_id.
  rewrite !chars_app, before_last_base by done.
  apply string_of_list_ascii_of_string.
Qed.

Lemma original_id_of_rep_witness : original_id ("q_rep7" +:+ "_rep" +:+ "12") = "q_rep7".
Proof. apply original_id_of_rep. reflexivity. Defined.

Lemma dict_put_keys {V} (d : list (string * V)) key v k :
  k ∈ (fst <$> dict_put d key v) ↔ k = key ∨ k ∈ (fst <$> d).
Proof.
  induction d as [|[k' w] d IH]; cbn.
  - rewrite list_elem_of_singleton. split; [by left|].
    by intros [?|?%elem_of_nil].
  - destruct (String.eqb_spec k' key) as [->|Hne]; cbn.
    + rewrite !elem_of_cons. split; [by right|]. intros [->|?]; [by left|done].
    + rewrite !elem_of_cons, IH. tauto.
Qed.

Lemma dict_put_NoDup {V} (d : list (string * V)) key v :
  NoDup (fst <$> d) → NoDup (fst <$> dict_put d key v).
Proof.
  induction d as [|[k' w] d IH]; cbn.
  - intros _. apply NoDup_singleton.
  - intros [Hk' Hd]%NoDup_cons. destruct (String.eqb_spec k' key) as [->|Hne]; cbn.
    + by apply NoDup_cons.
    + apply NoDup_cons. split; [|by apply IH].
      rewrite dict_put_keys. intros [?|?]; done.
Qed.

Lemma dict_put_elem {V} (d : list (string * V)) key v entry :
  entry ∈ dict_put d key v → entry = (key, v) ∨ entry ∈ d.
Proof.
  induction d as [|[k' w] d IH]; cbn.
  - intros ->%list_elem_of_singleton. by left.
  - destruct (String.eqb_spec k' key) as [->|Hne].
    + intros [->|?]%elem_of_cons; [by left|]. right. by apply list_elem_of_further.
    + intros [->|?]%elem_of_cons; [right; apply list_elem_of_here|].
      destruct IH as [->|?]; [done|by left|]. right. by apply list_elem_of_further.
Qed.

Section GroundTruth.

Context {Score : Type}.
Variable average : list Score → Score.
Variable greater : Score → Score → bool.
Variable self : DatasetHandler.

Lemma add_score_keys (scored : list (@EvalOutputItem Score)) d (ids : list string) :
  (∀ k, k ∈ (fst <$> d) → k ∈ ids) →
  (∀ item, item ∈ scored → scored_id item ∈ ids) →
  ∀ k, k ∈ (fst <$> foldl add_score d scored) → k ∈ ids.
Proof.
  revert d. induction scored as [|item scored IH]; intros d Hd Hscored; [done|].
  cbn [foldl]. apply IH.
  - intros k. unfold add_score. rewrite dict_put_keys. intros [->|?]; [|by apply Hd].
    apply Hscored, list_elem_of_here.
  - intros other Hother. by apply Hscored, list_elem_of_further.
Qed.

Lemma keep_best_fold (ids : list string) avg best :
  (∀ rep : string * Score, rep ∈ avg → rep.1 ∈ ids) →
  NoDup (fst <$> best) → (∀ entry, entry ∈ best → filed ids entry) →
  NoDup (fst <$> foldl (keep_best greater) best avg) ∧
  ∀ entry, entry ∈ foldl (keep_best greater) best avg → filed ids entry.
Proof.
  revert best. induction avg as [|rep avg IH]; intros best Havg Hdup Hfiled; [done|].
  cbn [foldl]. apply IH.
  - intros other Hother. by apply Havg, list_elem_of_further.
  - unfold keep_best. destruct (dict_get _ _) as [old|]; [destruct (greater _ _)|];
      try done; by apply dict_put_NoDup.
  - assert (filed ids (original_id rep.1, rep)) as Hrep.
    { split; [done|]. apply Havg, list_elem_of_here. }
    intros entry. unfold keep_best.
    destruct (dict_get _ _) as [old|]; [destruct (greater _ _)|]; [|by apply Hfiled|];
      intros [->|?]%dict_put_elem; auto.
Qed.

Lemma best_item_ids items (best : list (string * (string * Score))) :
  NoDup (fst <$> best) →
  NoDup (id <$> omap (best_item items) best) ∧
  ∀ v, v ∈ (id <$> omap (best_item items) best) → ∃ k, k ∈ (fst <$> best) ∧ v = Text k.
Proof.
  induction best as [|entry best IH]; cbn [omap list_omap fmap list_fmap].
  - intros _. split; [apply NoDup_nil_2|]. by intros v ?%elem_of_nil.
  - intros [Hentry Hbest]%NoDup_cons. destruct (IH Hbest) as [Hdup Hids].
    destruct (best_item items entry) as [item|] eqn:Hitem; cbn [fmap list_fmap].
    + assert (id item = Text entry.1) as Hid.
      { unfold best_item in Hitem. destruct (List.find _ _); by simplify_eq/=. }
      split.
      * apply NoDup_cons. split; [|done]. intros (k & Hk & Heq)%Hids.
        rewrite Hid in Heq. injection Heq as <-. done.
      * intros v [->|Hv]%elem_of_cons.
        -- exists entry.1. split; [apply list_elem_of_here|done].
        -- destruct (Hids v Hv) as (k & Hk & ->). exists k.
           split; [by apply list_elem_of_further|done].
    + split; [done|]. intros v Hv. destruct (Hids v Hv) as (k & Hk & ->).
      exists k. split; [by apply list_elem_of_further|done].
Qed.

(** X20: for structured input and a number of repetitions other than one,
    generate_ground_truth returns items with pairwise different ids; each
    stems from an item of the original input whose id some evaluator scored:
    it is filed under the original id of that repetition, takes over the
    item's input, has the item's generated output as its expected output and
    no output of its own. *)
Theorem generate_ground_truth_provenance original_eval_input evaluation_results :
  is_structured_input self = true → reps self ≠ 1 →
  ∃ items,
    generate_ground_truth average greater self original_eval_input evaluation_results
      = Some (Input items) ∧
    NoDup (id <$> items) ∧
    ∀ item, item ∈ items →
      ∃ rep_id original result scored,
        original ∈ eval_input_items original_eval_input ∧
        id original = Text rep_id ∧
        result ∈ evaluation_results ∧ scored ∈ eval_output_items result.2 ∧
        scored_id scored = rep_id ∧
        id item = Text (original_id rep_id) ∧
        input_obj item = input_obj original ∧
        expected_output_obj item = output_obj original ∧
        output_obj item = Missing.
Proof.
  intros Hstructured Hreps. unfold generate_ground_truth.
  rewrite Hstructured. cbn [negb]. rewrite (proj2 (Z.eqb_neq _ _) Hreps).
  set (scored_items := evaluation_results ≫= λ result, eval_output_items result.2).
  set (rep_scores := foldl add_score [] scored_items).
  set (avg := (λ entry : string * list Score, (entry.1, average entry.2)) <$> rep_scores).
  set (ids := scored_id <$> scored_items).
  destruct (keep_best_fold ids avg []) as [Hdup Hfiled].
  { intros rep (entry & -> & Hentry)%list_elem_of_fmap. cbn.
    apply (add_score_keys scored_items [] ids).
    - by intros k ?%elem_of_nil.
    - intros item Hitem. apply list_elem_of_fmap. eauto.
    - apply list_elem_of_fmap. eauto. }
  { apply NoDup_nil_2. }
  { by intros entry ?%elem_of_nil. }
  eexists. split; [done|]. split; [by apply best_item_ids|].
  intros item (entry & Hentry & Hitem)%list_elem_of_omap.
  destruct (Hfiled entry Hentry) as [Hkey Hrep].
  apply list_elem_of_fmap in Hrep as (scored & Hscored & Hin).
  apply list_elem_of_bind in Hin as (result & Hin & Hresult).
  unfold best_item in Hitem.
  destruct (List.find _ _) as [original|] eqn:Hfind; [|done].
  apply find_some in Hfind as [Horiginal Hid]. injection Hitem as <-.
  exists entry.2.1, original, result, scored. cbn.
  split; [by apply list_elem_of_In|].
  split. { unfold id_is in Hid. destruct (id original); try done.
           by apply String.eqb_eq in Hid as ->. }
  rewrite Hkey. done.
Qed.

(** X22: with one repetition the evaluation results play no part, and the
    ground truth generated publishes as the original input does: the same
    ids, questions and answers. *)
Theorem generate_ground_truth_single json_dumps original_eval_input evaluation_results :
  is_structured_input self = true → reps self = 1 →
  ∃ ground_truth,
    generate_ground_truth average greater self original_eval_input evaluation_results
      = Some ground_truth ∧
    publish_ground_truth json_dumps self ground_truth =
    publish_ground_truth json_dumps self original_eval_input.
Proof.
  intros Hstructured Hreps. unfold generate_ground_truth.
  rewrite Hstructured, Hreps. cbn [negb Z.eqb Pos.eqb]. eexists. split; [done|].
  unfold publish_ground_truth. rewrite Hstructured. cbn [negb eval_input_items].
  by rewrite <- list_fmap_compose.
Qed.

End GroundTruth.

Lemma generate_ground_truth_single_witness :
  ∃ ground_truth,
    generate_ground_truth sample_average Z.gtb (sample_handler false) sample_items
      sample_results = Some ground_truth ∧
    publish_ground_truth (λ _ _ _, "[]") (sample_handler false) ground_truth =
    publish_ground_truth (λ _ _ _, "[]") (sample_handler false) sample_items.
Proof.
  apply (generate_ground_truth_single sample_average Z.gtb (sample_handler false)
           (λ _ _ _, "[]") sample_items sample_results); reflexivity.
Defined.

Lemma generate_ground_truth_provenance_witness :
  ∃ items,
    generate_ground_truth sample_average Z.gtb
      (Handler (dataset_config (sample_handler false)) 3) sample_items sample_results
      = Some (Input items) ∧
    NoDup (id <$> items).
Proof.
  destruct (generate_ground_truth_provenance sample_average Z.gtb
              (Handler (dataset_config (sample_handler false)) 3)
              sample_items sample_results) as (items & Hrun & Hdup & _).
  - reflexivity.
  - cbn. lia.
  - by exists items.
Defined.

(** The best of the three repetitions becomes the ground truth. *)
Example generate_ground_truth_sample :
  generate_ground_truth sample_average Z.gtb
    (Handler (dataset_config (sample_handler false)) 3) sample_items sample_results =
  Some (Input [Item (Text "q1") (Text "Why?") (Text "since") Missing (Arr []) (Arr [])]).
Proof. by vm_compute. Qed.

End DatasetExtra.
